(** * COLi core (include/coli/core.h): a shallow embedding

    The header declares the intermediate representation of the COLi
    compiler: functions, buffers, computations and a small textual parser
    of isl maps.  Member functions that abort through [assert] are
    embedded as functions into [outcome]; objects reached through
    pointers that the code mutates live in an explicit store. *)

From Stdlib Require Import ZArith List String Ascii Bool Lia.
From stdpp Require Import base option gmap strings list.

Local Open Scope Z_scope.

(** ** Outcomes of member functions

    [assert(e && "msg")] aborts the program when [e] is false.  Some
    library calls have no defined behaviour on the values the code may
    hand them (dereferencing a pointer to no object, building a
    [std::string] from a null [char*]); these are kept apart from failed
    assertions, and so is a C++ exception that nothing catches. *)

Inductive failure : Type :=
| assertion_failed (expr : string)
| undefined_behaviour (what : string)
| exception (what : string).

Inductive outcome (A : Type) : Type :=
| Done (a : A)
| Abort (f : failure).

Arguments Done {A} a.
Arguments Abort {A} f.

#[global] Instance outcome_ret : MRet outcome := fun _ a => Done a.

#[global] Instance outcome_bind : MBind outcome := fun _ _ k m =>
  match m with
  | Done a => k a
  | Abort f => Abort f
  end.

Definition assert (b : bool) (expr : string) : outcome unit :=
  if b then Done tt else Abort (assertion_failed expr).

Definition is_done {A : Type} (m : outcome A) : bool :=
  match m with Done _ => true | Abort _ => false end.

Definition is_assertion_failure {A : Type} (m : outcome A) : bool :=
  match m with Abort (assertion_failed _) => true | _ => false end.

(** ** Machine integers and addresses

    [int] values are kept as [Z]; where an [int] meets a [size_t] it is
    first converted to the 64-bit unsigned range, as the usual arithmetic
    conversions do. *)

Definition to_size_t (n : Z) : Z := n mod 2 ^ 64.

(** Addresses of objects; a pointer is [option loc], [None] being NULL. *)
Definition loc := positive.

(** [std::string::length() > 0]. *)
Definition nonempty (s : string) : bool := (0 <? String.length s)%nat.

(** ** namespace argument *)

Module argument.
(** [enum type {input, output, internal}]. *)
Inductive type : Set := input | output | internal.
End argument.

(** ** Halide and isl handles that the header only stores

    The header keeps these values without looking inside them. *)

Module Halide.
(** [Halide::Type]: width, signedness and floating flag are not
    inspected by the header. *)
Inductive Type_ : Set := UInt (bits : nat) | Int (bits : nat) | Float (bits : nat).

(** [Halide::Expr], [Halide::Internal::Stmt], [Halide::Argument]: opaque. *)
Definition Expr := option positive.
Definition Stmt := option positive.
Definition Argument := string.

(** [Halide::Buffer(type, sizes, data, name)]: the arguments it was
    built from; [name()] gives back the name it was given (the header
    only passes non-empty names).  The constructor of this class is
    outside the header; it is taken to return. *)
Record Buffer : Type := mkBuffer {
  buffer_type : Type_;
  buffer_sizes : list Z;
  buffer_data : option loc;
  buffer_name : string
}.

(** [Expr::defined()]: the handle refers to an expression. *)
Definition defined (e : Expr) : bool := bool_decide (e ≠ None).
End Halide.

(** [isl_ctx*] and [isl_ast_node*], [isl_ast_expr*]: handles. *)
Definition isl_ctx := positive.
Definition isl_ast_node := positive.
Definition isl_ast_expr := positive.

(** ** class function *)

Module function.

(** The data members of [class function], in declaration order.
    [invariants] holds the names of the [coli::invariant] objects. *)
Record t : Type := mk {
  name : string;
  arguments : list Halide.Argument;
  invariants : list string;
  ctx : isl_ctx;
  ast : option isl_ast_node;
  parallel_dimensions : gmap string Z;
  vector_dimensions : gmap string Z;
  body : list loc;
  halide_stmt : option loc;
  buffers_list : gmap string Halide.Buffer
}.

(** [function(std::string name)].

    The mem-initialiser list sets [name]; the containers are
    default-constructed (empty); the body assigns [halide_stmt] and
    [ctx].  The pointer member [ast] is neither initialised nor
    assigned: it keeps the value [storage_ast] that the object's
    storage held before the constructor ran.  [fresh_ctx] is what
    [isl_ctx_alloc()] returns. *)
Definition ctor (storage_ast : option isl_ast_node) (fresh_ctx : isl_ctx)
    (name : string) : outcome t :=
  assert (nonempty name) "Empty function name";;
  Done {| name := name;
          arguments := [];
          invariants := [];
          ctx := fresh_ctx;
          ast := storage_ast;
          parallel_dimensions := ∅;
          vector_dimensions := ∅;
          body := [];
          halide_stmt := None;
          buffers_list := ∅ |}.

Definition get_name (f : t) : string := name f.
Definition get_computations (f : t) : list loc := body f.
Definition get_ctx (f : t) : isl_ctx := ctx f.

(** [bool should_parallelize(std::string comp, int lev)]. *)
Definition should_parallelize (f : t) (comp : string) (lev : Z) : outcome bool :=
  assert (nonempty comp) "comp.length() > 0";;
  assert (0 <=? lev) "lev >= 0";;
  match parallel_dimensions f !! comp with
  | None => Done false
  | Some second => Done (second =? lev)
  end.

(** [bool should_vectorize(std::string comp, int lev)]. *)
Definition should_vectorize (f : t) (comp : string) (lev : Z) : outcome bool :=
  assert (nonempty comp) "comp.length() > 0";;
  assert (0 <=? lev) "lev >= 0";;
  match vector_dimensions f !! comp with
  | None => Done false
  | Some second => Done (second =? lev)
  end.

(** [isl_ast_node *get_isl_ast()]: the assertion, then the pointer. *)
Definition get_isl_ast (f : t) : outcome (option isl_ast_node) :=
  assert (bool_decide (ast f ≠ None))
    "You should generate an ISL ast first (gen_isl_ast()).";;
  Done (ast f).

(** [void set_ctx(isl_ctx *ctx)]. *)
Definition set_ctx (f : t) (c : isl_ctx) : t :=
  {| name := name f; arguments := arguments f; invariants := invariants f;
     ctx := c; ast := ast f;
     parallel_dimensions := parallel_dimensions f;
     vector_dimensions := vector_dimensions f;
     body := body f; halide_stmt := halide_stmt f;
     buffers_list := buffers_list f |}.

(** Modelled from the spec: [void add_computation(computation *cpt)] is
    declared in the header and defined outside it.  The specification
    has a constructor "register itself with the parent function" and
    keeps the body as the ordered list of the function's computations
    that "contains this computation exactly once": the pointer is
    appended to [body], which is otherwise left as it is. *)
Definition add_computation (f : t) (cpt : loc) : t :=
  {| name := name f; arguments := arguments f; invariants := invariants f;
     ctx := ctx f; ast := ast f;
     parallel_dimensions := parallel_dimensions f;
     vector_dimensions := vector_dimensions f;
     body := body f ++ [cpt]; halide_stmt := halide_stmt f;
     buffers_list := buffers_list f |}.

(** Assignment to the public member [buffers_list]. *)
Definition set_buffers_list (f : t) (m : gmap string Halide.Buffer) : t :=
  {| name := name f; arguments := arguments f; invariants := invariants f;
     ctx := ctx f; ast := ast f;
     parallel_dimensions := parallel_dimensions f;
     vector_dimensions := vector_dimensions f;
     body := body f; halide_stmt := halide_stmt f;
     buffers_list := m |}.

(** [std::vector<Halide::Argument> get_arguments()] and
    [std::vector<coli::invariant> get_invariants()]. *)
Definition get_arguments (f : t) : list Halide.Argument := arguments f.
Definition get_invariants (f : t) : list string := invariants f.

(** [Halide::Internal::Stmt get_halide_stmt()], that is
    [return *halide_stmt;].  [stmts] holds the statements that the code
    generator has allocated, by address. *)
Definition get_halide_stmt (f : t) (stmts : gmap loc Halide.Stmt)
    : outcome Halide.Stmt :=
  match halide_stmt f with
  | None => Abort (undefined_behaviour "null pointer dereferenced")
  | Some l =>
      match stmts !! l with
      | Some st => Done st
      | None => Abort (undefined_behaviour "pointer to no object dereferenced")
      end
  end.

End function.

(** ** The store of [function] objects

    Buffers and computations receive a [coli::function *] and write
    through it.  [deref] is [*p]: defined only when [p] points to a
    function of the store. *)

Definition deref (fs : gmap loc function.t) (p : option loc) : outcome function.t :=
  match p with
  | None => Abort (undefined_behaviour "null pointer dereferenced")
  | Some l =>
      match fs !! l with
      | Some f => Done f
      | None => Abort (undefined_behaviour "pointer to no object dereferenced")
      end
  end.

(** [*p = f]. *)
Definition store (fs : gmap loc function.t) (p : option loc) (f : function.t)
    : gmap loc function.t :=
  match p with
  | None => fs
  | Some l => <[l := f]> fs
  end.

(** [std::map::insert(std::pair(k, v))]: a key already present keeps its
    value. *)
Definition std_map_insert {V : Type} (k : string) (v : V) (m : gmap string V)
    : gmap string V :=
  match m !! k with
  | Some _ => m
  | None => <[k := v]> m
  end.

(** ** class buffer *)

Module buffer.

Record t : Type := mk {
  name : string;
  nb_dims : Z;
  dim_sizes : list Z;
  type : Halide.Type_;
  data : option loc;
  fct : option loc;
  is_arg : bool;
  argtype : argument.type
}.

(** [buffer(name, nb_dims, dim_sizes, type, data, is_argument, argt, fct)].
    The four assertions, the registration of a new [Halide::Buffer]
    under its name in [fct->buffers_list], then the argument kind. *)
Definition ctor (name : string) (nb_dims : Z) (dim_sizes : list Z)
    (type : Halide.Type_) (data : option loc) (is_argument : bool)
    (argt : argument.type) (fct : option loc) (fs : gmap loc function.t)
    : outcome (t * gmap loc function.t) :=
  assert (nonempty name) "Empty buffer name";;
  assert (0 <? nb_dims) "Buffer dimensions <= 0";;
  assert (to_size_t nb_dims =? Z.of_nat (length dim_sizes))
    "Mismatch in the number of dimensions";;
  assert (bool_decide (fct ≠ None)) "Input function is NULL";;
  let buf := Halide.mkBuffer type dim_sizes data name in
  f ← deref fs fct;
  let fs := store fs fct
    (function.set_buffers_list f
       (std_map_insert (Halide.buffer_name buf) buf (function.buffers_list f))) in
  Done ({| name := name; nb_dims := nb_dims; dim_sizes := dim_sizes;
           type := type; data := data; fct := fct;
           is_arg := is_argument;
           argtype := if is_argument then argt else argument.internal |},
        fs).

Definition get_name (b : t) : string := name b.
Definition get_type (b : t) : Halide.Type_ := type b.
Definition get_n_dims (b : t) : Z := nb_dims b.

(** [coli::argument::type get_argument_type()]. *)
Definition get_argument_type (b : t) : argument.type := argtype b.

End buffer.

(** ** The integer set library, as far as the header calls it

    isl is a library the header links against.  Its sets and maps are
    kept by what they denote: the space they live in (parameter names,
    tuple names, dimension names) and the integer points they contain,
    under an assignment of values to the parameters.  A null [isl_set*],
    [isl_map*] or [isl_space*] is [None]; every isl function returns null
    on a null argument and on an error. *)

(** One tuple of a space: [S0[i, j]] has name [Some "S0"] and dimensions
    [i] and [j]; an unnamed tuple has name [None]. *)
Record isl_tuple : Type := mk_tuple {
  tuple_name : option string;
  tuple_dims : list string
}.

Inductive isl_space : Type :=
| set_space (params : list string) (tuple : isl_tuple)
| map_space (params : list string) (dom ran : isl_tuple).

Record isl_set : Type := mk_set {
  set_params : list string;
  set_tuple : isl_tuple;
  set_points : (string -> Z) -> list Z -> Prop
}.

Record isl_map : Type := mk_map {
  map_params : list string;
  map_in : isl_tuple;
  map_out : isl_tuple;
  map_pairs : (string -> Z) -> list Z -> list Z -> Prop
}.

(** [enum isl_dim_type]; [isl_dim_set] is another name of [isl_dim_out]. *)
Inductive isl_dim_type : Set := isl_dim_param | isl_dim_in | isl_dim_out.
Definition isl_dim_set : isl_dim_type := isl_dim_out.

(** The points of a set are tuples of as many integers as the space has
    dimensions; likewise the pairs of a map. *)
Definition set_contains (s : isl_set) (env : string -> Z) (x : list Z) : Prop :=
  length x = length (tuple_dims (set_tuple s)) /\ set_points s env x.

Definition map_contains (m : isl_map) (env : string -> Z) (x y : list Z) : Prop :=
  length x = length (tuple_dims (map_in m)) /\
  length y = length (tuple_dims (map_out m)) /\
  map_pairs m env x y.

(** Two tuples are the same tuple of a space when they agree on the name
    and on the number of dimensions. *)
Definition tuple_is_equal (a b : isl_tuple) : bool :=
  bool_decide (tuple_name a = tuple_name b) &&
  bool_decide (length (tuple_dims a) = length (tuple_dims b)).

(** [isl_set_is_equal] together with equality of the spaces: the same
    parameters, the same tuple, the same points. *)
Definition set_equal (s1 s2 : isl_set) : Prop :=
  set_params s1 = set_params s2 /\
  set_tuple s1 = set_tuple s2 /\
  forall env x, set_contains s1 env x <-> set_contains s2 env x.


Definition isl_set_copy (s : option isl_set) : option isl_set := s.
Definition isl_map_copy (m : option isl_map) : option isl_map := m.

Definition isl_set_get_space (s : option isl_set) : option isl_space :=
  match s with
  | Some s => Some (set_space (set_params s) (set_tuple s))
  | None => None
  end.

(** The name of a tuple, null when the tuple has none. *)
Definition isl_space_get_tuple_name (sp : option isl_space) (type : isl_dim_type)
    : option string :=
  match sp, type with
  | Some (set_space _ t), isl_dim_out => tuple_name t
  | Some (map_space _ d _), isl_dim_in => tuple_name d
  | Some (map_space _ _ r), isl_dim_out => tuple_name r
  | _, _ => None
  end.

(** The space of the maps from a set space to itself; an error on a
    space that is not a set space. *)
Definition isl_space_map_from_set (sp : option isl_space) : option isl_space :=
  match sp with
  | Some (set_space ps t) => Some (map_space ps t t)
  | _ => None
  end.

(** The identity relation of a map space whose two sides have the same
    number of dimensions; an error otherwise. *)
Definition isl_map_identity (sp : option isl_space) : option isl_map :=
  match sp with
  | Some (map_space ps d r) =>
      if bool_decide (length (tuple_dims d) = length (tuple_dims r))
      then Some {| map_params := ps; map_in := d; map_out := r;
                   map_pairs := fun _ x y => y = x |}
      else None
  | _ => None
  end.

(** isl aligns the parameters of the two arguments of a binary
    operation before it combines them.  Where a map meets a set
    ([isl_map_intersect_domain], [isl_set_apply]) the result has the
    parameters of the set, in their order, followed by those of the map
    that the set lacks: the parameters [N, K] of a set and [M, N] of a
    map give [N, K, M] (isl 0.26). *)
Definition isl_align_params (model alignee : list string) : list string :=
  model ++ filter (fun p => p ∉ model) alignee.

(** The pairs of [m] whose first component is in [s]; [s] has to live in
    the domain space of [m], which is an error otherwise. *)
Definition isl_map_intersect_domain (m : option isl_map) (s : option isl_set)
    : option isl_map :=
  match m, s with
  | Some m, Some s =>
      if tuple_is_equal (map_in m) (set_tuple s)
      then Some {| map_params := isl_align_params (set_params s) (map_params m);
                   map_in := map_in m;
                   map_out := map_out m;
                   map_pairs := fun env x y =>
                     map_pairs m env x y /\ set_contains s env x |}
      else None
  | _, _ => None
  end.

(** isl refuses a name that [strtol(s, &p, 0)] reads a number from:
    after white space and one optional sign, a digit. *)
Definition is_space (c : ascii) : bool :=
  let n := nat_of_ascii c in
  ((n =? 32) || ((9 <=? n) && (n <=? 13)))%nat.

Definition is_digit (c : ascii) : bool :=
  let n := nat_of_ascii c in ((48 <=? n) && (n <=? 57))%nat.

Fixpoint skip_spaces (s : string) : string :=
  match s with
  | String c s' => if is_space c then skip_spaces s' else s
  | EmptyString => s
  end.

Definition starts_with_digit (s : string) : bool :=
  match s with
  | String c _ => is_digit c
  | EmptyString => false
  end.

Definition name_ok (s : string) : bool :=
  match skip_spaces s with
  | String c s' =>
      if bool_decide (c = "+"%char) || bool_decide (c = "-"%char)
      then negb (starts_with_digit s')
      else negb (is_digit c)
  | EmptyString => true
  end.

Definition set_name (t : isl_tuple) (s : string) : isl_tuple :=
  {| tuple_name := Some s; tuple_dims := tuple_dims t |}.

(** Names one tuple of a map; the points are not touched. *)
Definition isl_map_set_tuple_name (m : option isl_map) (type : isl_dim_type)
    (s : string) : option isl_map :=
  match m, type with
  | Some m, isl_dim_in =>
      if name_ok s
      then Some {| map_params := map_params m; map_in := set_name (map_in m) s;
                   map_out := map_out m; map_pairs := map_pairs m |}
      else None
  | Some m, isl_dim_out =>
      if name_ok s
      then Some {| map_params := map_params m; map_in := map_in m;
                   map_out := set_name (map_out m) s; map_pairs := map_pairs m |}
      else None
  | _, _ => None
  end.

Definition isl_set_set_tuple_name (s : option isl_set) (n : string)
    : option isl_set :=
  match s with
  | Some s =>
      if name_ok n
      then Some {| set_params := set_params s;
                   set_tuple := set_name (set_tuple s) n;
                   set_points := set_points s |}
      else None
  | None => None
  end.

(** Coalescing merges the pieces of the representation of a map; the
    map it stands for is the same. *)
Definition isl_map_coalesce (m : option isl_map) : option isl_map := m.

(** The image of [s] under [m], a set in the range space of [m]; [s] has
    to live in the domain space of [m], which is an error otherwise. *)
Definition isl_set_apply (s : option isl_set) (m : option isl_map)
    : option isl_set :=
  match s, m with
  | Some s, Some m =>
      if tuple_is_equal (set_tuple s) (map_in m)
      then Some {| set_params := isl_align_params (set_params s) (map_params m);
                   set_tuple := map_out m;
                   set_points := fun env y =>
                     exists x, set_contains s env x /\ map_contains m env x y |}
      else None
  | _, _ => None
  end.

(** Reading and printing isl text.  The header hands strings to isl and
    takes strings back without looking at them, so the reader and the
    printer of the library are left open. *)
Class isl_text : Type := {
  isl_set_read_from_str : isl_ctx -> string -> option isl_set;
  isl_map_read_from_str : isl_ctx -> string -> option isl_map;
  isl_printer_print_map : isl_map -> string
}.

(** The text of a map; null for a null map. *)
Definition isl_map_to_str `{isl_text} (m : option isl_map) : option string :=
  match m with
  | Some m => Some (isl_printer_print_map m)
  | None => None
  end.

(** [std::string] built from a [char] pointer: no defined behaviour on a
    null pointer. *)
Definition std_string (p : option string) : outcome string :=
  match p with
  | Some s => Done s
  | None => Abort (undefined_behaviour "std::string built from a null pointer")
  end.

(** ** class computation *)

Module computation.

Record t : Type := mk {
  ctx : isl_ctx;
  time_processor_domain : option isl_set;
  iteration_domain : option isl_set;
  schedule : option isl_map;
  function : option loc;
  name : string;
  expression : Halide.Expr;
  stmt : Halide.Stmt;
  access : option isl_map;
  index_expr : option isl_ast_expr
}.

(** Assignments to single members. *)
Definition set_time_processor_domain (c : t) (v : option isl_set) : t :=
  {| ctx := ctx c; time_processor_domain := v;
     iteration_domain := iteration_domain c; schedule := schedule c;
     function := function c; name := name c; expression := expression c;
     stmt := stmt c; access := access c; index_expr := index_expr c |}.

Definition set_expression (c : t) (v : Halide.Expr) : t :=
  {| ctx := ctx c; time_processor_domain := time_processor_domain c;
     iteration_domain := iteration_domain c; schedule := schedule c;
     function := function c; name := name c; expression := v;
     stmt := stmt c; access := access c; index_expr := index_expr c |}.

Definition get_access (c : t) : option isl_map := access c.
Definition get_function (c : t) : option loc := function c.
Definition get_time_processor_domain (c : t) : option isl_set :=
  time_processor_domain c.
Definition get_schedule (c : t) : option isl_map := schedule c.
Definition get_name (c : t) : string := name c.
Definition get_ctx (c : t) : isl_ctx := ctx c.

(** [isl_set *get_iteration_domain()]: "Every computation should have
    an iteration space." *)
Definition get_iteration_domain (c : t) : outcome (option isl_set) :=
  assert (bool_decide (iteration_domain c ≠ None)) "iteration_domain != NULL";;
  Done (iteration_domain c).

(** [void set_schedule(isl_map *map)]. *)
Definition set_schedule (c : t) (map : option isl_map) : t :=
  {| ctx := ctx c; time_processor_domain := time_processor_domain c;
     iteration_domain := iteration_domain c; schedule := map;
     function := function c; name := name c; expression := expression c;
     stmt := stmt c; access := access c; index_expr := index_expr c |}.

(** [void gen_time_processor_domain()]. *)
Definition gen_time_processor_domain (c : t) : outcome t :=
  d ← get_iteration_domain c;
  assert (bool_decide (d ≠ None)) "this->get_iteration_domain() != NULL";;
  assert (bool_decide (get_schedule c ≠ None)) "this->get_schedule() != NULL";;
  d ← get_iteration_domain c;
  Done (set_time_processor_domain c
          (isl_set_apply (isl_set_copy d) (isl_map_copy (get_schedule c)))).

(** [void set_identity_schedule()]. *)
Definition set_identity_schedule (c : t) : outcome t :=
  d ← get_iteration_domain c;
  let sp := isl_set_get_space d in
  let sched := isl_map_identity (isl_space_map_from_set sp) in
  d ← get_iteration_domain c;
  let sched := isl_map_intersect_domain sched (isl_set_copy d) in
  let sched := isl_map_set_tuple_name sched isl_dim_out "" in
  let sched := isl_map_coalesce sched in
  Done (set_schedule c sched).

Section text.
Context `{isl_text}.

(** [void set_access(std::string access_str)]. *)
Definition set_access (c : t) (access_str : string) : outcome t :=
  assert (nonempty access_str) "access_str.length() > 0";;
  Done {| ctx := ctx c; time_processor_domain := time_processor_domain c;
          iteration_domain := iteration_domain c; schedule := schedule c;
          function := function c; name := name c;
          expression := expression c; stmt := stmt c;
          access := isl_map_read_from_str (ctx c) access_str;
          index_expr := index_expr c |}.

(** [void bind_to(buffer *buff)]. *)
Definition bind_to (c : t) (buff : option buffer.t) : outcome t :=
  assert (bool_decide (buff ≠ None)) "buff != NULL";;
  d ← get_iteration_domain c;
  let sp := isl_set_get_space d in
  let map := isl_map_identity (isl_space_map_from_set sp) in
  d ← get_iteration_domain c;
  let map := isl_map_intersect_domain map (isl_set_copy d) in
  name ← match buff with
         | Some b => Done (buffer.get_name b)
         | None => Abort (undefined_behaviour "null pointer dereferenced")
         end;
  let map := isl_map_set_tuple_name map isl_dim_out name in
  let map := isl_map_coalesce map in
  str ← std_string (isl_map_to_str map);
  set_access c str.

(** [void init_computation(std::string iteration_space_str,
    coli::function *fct)], run on the object at address [this];
    [storage_expression] is the default-constructed [expression]
    member. *)
Definition init_computation (this : loc) (storage_expression : Halide.Expr)
    (iteration_space_str : string) (fct : option loc)
    (fs : gmap loc function.t) : outcome (t * gmap loc function.t) :=
  assert (bool_decide (fct ≠ None)) "fct != NULL";;
  assert (nonempty iteration_space_str) "Empty iteration space";;
  let index_expr := None in
  let access := None in
  let schedule := None in
  let stmt := None in
  let time_processor_domain := None in
  f ← deref fs fct;
  let ctx := function.get_ctx f in
  let iteration_domain := isl_set_read_from_str ctx iteration_space_str in
  name ← std_string
    (isl_space_get_tuple_name (isl_set_get_space iteration_domain) isl_dim_set);
  let function := fct in
  let fs := store fs function (function.add_computation f this) in
  c ← set_identity_schedule
    {| ctx := ctx; time_processor_domain := time_processor_domain;
       iteration_domain := iteration_domain; schedule := schedule;
       function := function; name := name;
       expression := storage_expression; stmt := stmt;
       access := access; index_expr := index_expr |};
  Done (c, fs).

(** [computation(std::string iteration_space_str, Halide::Expr expr,
    coli::function *fct)]. *)
Definition ctor (this : loc) (iteration_space_str : string)
    (expr : Halide.Expr) (fct : option loc) (fs : gmap loc function.t)
    : outcome (t * gmap loc function.t) :=
  '(c, fs) ← init_computation this None iteration_space_str fct fs;
  Done (set_expression c expr, fs).

End text.

End computation.

(** ** class invariant *)

Module invariant.

Record t : Type := mk {
  expr : Halide.Expr;
  name : string
}.

Section ctor.
(** [function::add_invariant] is declared in the header and defined
    outside it; the constructor hands it a copy of the new object and
    does not look at what it does. *)
Variable add_invariant : function.t -> t -> function.t.

(** [invariant(std::string param_name, Halide::Expr param_expr,
    coli::function *func)]. *)
Definition ctor (param_name : string) (param_expr : Halide.Expr)
    (func : option loc) (fs : gmap loc function.t)
    : outcome (t * gmap loc function.t) :=
  assert (nonempty param_name) "Parameter name empty";;
  assert (Halide.defined param_expr) "Parameter undefined";;
  assert (bool_decide (func ≠ None)) "Function undefined";;
  let this := {| expr := param_expr; name := param_name |} in
  f ← deref fs func;
  Done (this, store fs func (add_invariant f this)).

End ctor.

Definition get_name (i : t) : string := name i.
Definition get_expr (i : t) : Halide.Expr := expr i.

End invariant.

(** ** [std::string] searching and slicing

    Positions are [size_t] values; [npos] is the largest of them.  An
    [int] variable that receives a [size_t] keeps its low 32 bits, read
    as a signed number; an [int] passed where a [size_t] is expected is
    taken modulo [2^64].  Between the two conversions the header adds and
    subtracts small constants in [int]. *)

Definition npos : Z := 2 ^ 64 - 1.

Definition to_int (n : Z) : Z := (n + 2 ^ 31) mod 2 ^ 32 - 2 ^ 31.

Fixpoint string_drop (n : nat) (s : string) : string :=
  match n, s with
  | S n', String _ s' => string_drop n' s'
  | _, _ => s
  end.

Fixpoint string_take (n : nat) (s : string) : string :=
  match n, s with
  | S n', String c s' => String c (string_take n' s')
  | _, _ => EmptyString
  end.

(** [pat] is a prefix of [s]. *)
Fixpoint starts_with (pat s : string) : bool :=
  match pat, s with
  | EmptyString, _ => true
  | String a pat', String b s' => Ascii.eqb b a && starts_with pat' s'
  | String _ _, EmptyString => false
  end.

(** The first position, counted from [i] at the head of [s], where [pat]
    starts. *)
Fixpoint find_from (pat s : string) (i : nat) {struct s} : option nat :=
  if starts_with pat s then Some i
  else match s with
       | EmptyString => None
       | String _ s' => find_from pat s' (S i)
       end.

(** [s.find(pat, pos)]. *)
Definition string_find (s pat : string) (pos : Z) : Z :=
  if pos <=? Z.of_nat (String.length s) then
    match find_from pat (string_drop (Z.to_nat pos) s) (Z.to_nat pos) with
    | Some i => Z.of_nat i
    | None => npos
    end
  else npos.

(** [s.substr(pos, n)]: throws [std::out_of_range] when [pos] is beyond
    the end; otherwise the [n] characters from [pos], or as many as there
    are. *)
Definition string_substr (s : string) (pos n : Z) : outcome string :=
  let size := Z.of_nat (String.length s) in
  if size <? pos then Abort (exception "std::out_of_range")
  else Done (string_take (Z.to_nat (Z.min n (size - pos)))
               (string_drop (Z.to_nat pos) s)).

(** [v.push_back(x)]. *)
Definition push_back {A : Type} (v : list A) (x : A) : list A := v ++ [x].

(** ** namespace parser *)

Module parser.

(** Modelled from the spec: the tokenizer behind [space::parse] and
    [constraint::parse], both declared in the header and defined
    outside it.  In the specification dimension lists are separated by
    [","], "constraints are conjunctions joined by ` and `", and the
    pieces are "kept as opaque substrings and re-serialized verbatim":
    the text is cut at every occurrence of the delimiter, read from the
    left, and the pieces are kept as they are.  [skip] counts the
    characters of a delimiter still to be passed over; [token] is the
    piece being read. *)
Fixpoint split_from (delimiter : string) (str : string) (skip : nat)
    (token : string) : list string :=
  match str with
  | EmptyString => [token]
  | String c str' =>
      match skip with
      | S k => split_from delimiter str' k token
      | O =>
          if starts_with delimiter str
          then token :: split_from delimiter str'
                          (String.length delimiter - 1) EmptyString
          else split_from delimiter str' 0 (token +:+ String c EmptyString)
      end
  end.

Definition split_string (str delimiter : string) : list string :=
  split_from delimiter str 0 EmptyString.

(** Modelled from the spec: a text without the white space at its
    beginning, for the "textually normalized form" that printing a
    parsed map yields. *)
Fixpoint trim_left (s : string) : string :=
  match s with
  | String c s' => if is_space c then trim_left s' else s
  | EmptyString => s
  end.

(** Modelled from the spec: a text without the white space at its end. *)
Fixpoint trim_right (s : string) : string :=
  match s with
  | EmptyString => EmptyString
  | String c s' =>
      match trim_right s' with
      | EmptyString => if is_space c then EmptyString else String c EmptyString
      | String _ _ as t => String c t
      end
  end.

(** Modelled from the spec: a text without the white space at its two
    ends; white space inside the text stays. *)
Definition trim (s : string) : string := trim_right (trim_left s).

(** *** class space *)
Module space.

Record t : Type := mk {
  constraints : list string;
  dimensions : list string
}.

(** [space() {}]. *)
Definition empty_space : t := {| constraints := []; dimensions := [] |}.

(** [std::string get_str()]: the loop over [i], with [","] before
    every dimension but the first. *)
Definition get_str (sp : t) : string :=
  fold_left
    (fun result '(i, dim) =>
       let result := if bool_decide (i ≠ 0%nat) then result +:+ "," else result in
       result +:+ dim)
    (imap pair (dimensions sp)) EmptyString.

Definition add_constraint (sp : t) (cst : string) : t :=
  {| constraints := push_back (constraints sp) cst;
     dimensions := dimensions sp |}.

Definition get_constraints (sp : t) : list string := constraints sp.

(** [void replace(std::string in, std::string out1, std::string out2)]:
    the loop over [dimensions] fills [new_dimensions], which then
    replaces [dimensions]. *)
Definition replace (sp : t) (in_ out1 out2 : string) : t :=
  let new_dimensions :=
    fold_left
      (fun new_dimensions dim =>
         match String.compare dim in_ with
         | Eq => push_back (push_back new_dimensions out1) out2
         | _ => push_back new_dimensions dim
         end)
      (dimensions sp) [] in
  {| constraints := constraints sp; dimensions := new_dimensions |}.

(** Modelled from the spec: [void parse(std::string space)] is
    declared in the header and defined outside it.  The text between
    the brackets of a tuple is a list of dimension names separated by
    [","]; the names are appended to [dimensions] as they are. *)
Definition parse (sp : t) (space : string) : t :=
  {| constraints := constraints sp;
     dimensions := dimensions sp ++ split_string space "," |}.

Definition empty (sp : t) : bool := bool_decide (dimensions sp = []).

End space.

(** *** class constraint *)
Module constraint.

Record t : Type := mk { constraints : list string }.

(** [constraint() { }]. *)
Definition no_constraint : t := {| constraints := [] |}.

(** Modelled from the spec: [void parse(std::string str)] is declared
    in the header and defined outside it.  In the specification
    "constraints are conjunctions joined by ` and `", the pieces "are
    kept as opaque substrings and re-serialized verbatim", and printing
    what was parsed "yields a textually normalized form": the white
    space around the constraint text, which is layout of the map text,
    is left out; the rest is cut at every [" and "] and the conjuncts
    are appended to [constraints] as they are. *)
Definition parse (c : t) (str : string) : t :=
  {| constraints := constraints c ++ split_string (trim str) " and " |}.

(** [void add(std::string str)]. *)
Definition add (c : t) (str : string) : outcome t :=
  assert (negb (bool_decide (str = EmptyString))) "str.empty() == false";;
  Done {| constraints := push_back (constraints c) str |}.

(** [void add_constraints(std::vector<std::string> vec)]. *)
Definition add_constraints (c : t) (vec : list string) : t :=
  {| constraints := fold_left push_back vec (constraints c) |}.

(** [std::string get_str()]: [" and "] before every constraint but
    the first. *)
Definition get_str (c : t) : string :=
  fold_left
    (fun result '(i, cst) =>
       let result :=
         if bool_decide (i ≠ 0%nat) then result +:+ " and " else result in
       result +:+ cst)
    (imap pair (constraints c)) EmptyString.

Definition empty (c : t) : bool := bool_decide (constraints c = []).

End constraint.

(** *** class map *)
Module map.

Record t : Type := mk {
  parameters : space.t;
  domain_name : string;
  range_name : string;
  domain : space.t;
  range : space.t;
  constraints : constraint.t
}.

(** [map(std::string map_str)].  Every position is an [int] that
    receives [find(...)] plus or minus one; the assertions compare
    these [int]s with [npos]. *)
Definition ctor (map_str : string) : outcome t :=
  let map_begin := to_int (to_size_t (string_find map_str "{" 0 + 1)) in
  let map_end := to_int (to_size_t (string_find map_str "}" 0 - 1)) in
  assert (negb (to_size_t map_begin =? npos)) "map_begin != std::string::npos";;
  assert (negb (to_size_t map_end =? npos)) "map_end != std::string::npos";;
  let domain_space_begin :=
    to_int (to_size_t (string_find map_str "[" (to_size_t map_begin) + 1)) in
  let domain_space_begin_pre_bracket :=
    to_int (to_size_t (string_find map_str "[" (to_size_t map_begin) - 1)) in
  let domain_space_end :=
    to_int (to_size_t (string_find map_str "]" (to_size_t map_begin) - 1)) in
  assert (negb (to_size_t domain_space_begin =? npos))
    "domain_space_begin != std::string::npos";;
  assert (negb (to_size_t domain_space_end =? npos))
    "domain_space_end != std::string::npos";;
  domain_name ← string_substr map_str (to_size_t map_begin)
    (to_size_t (domain_space_begin_pre_bracket - map_begin + 1));
  domain_space_str ← string_substr map_str (to_size_t domain_space_begin)
    (to_size_t (domain_space_end - domain_space_begin + 1));
  let domain := space.parse space.empty_space domain_space_str in
  let pos_arrow :=
    to_int (string_find map_str "->" (to_size_t domain_space_end)) in
  let first_char_after_arrow := pos_arrow + 2 in
  assert (negb (to_size_t pos_arrow =? npos)) "pos_arrow != std::string::npos";;
  let range_space_begin :=
    to_int (to_size_t
      (string_find map_str "[" (to_size_t first_char_after_arrow) + 1)) in
  let range_space_begin_pre_bracket :=
    to_int (to_size_t
      (string_find map_str "[" (to_size_t first_char_after_arrow) - 1)) in
  let range_space_end :=
    to_int (to_size_t
      (string_find map_str "]" (to_size_t first_char_after_arrow) - 1)) in
  assert (negb (to_size_t range_space_begin =? npos))
    "range_space_begin != std::string::npos";;
  assert (negb (to_size_t range_space_end =? npos))
    "range_space_end != std::string::npos";;
  range_name ← string_substr map_str (to_size_t first_char_after_arrow)
    (to_size_t (range_space_begin_pre_bracket - first_char_after_arrow + 1));
  range_space_str ← string_substr map_str (to_size_t range_space_begin)
    (to_size_t (range_space_end - range_space_begin + 1));
  let range := space.parse space.empty_space range_space_str in
  let constraints :=
    constraint.add_constraints constraint.no_constraint
      (space.get_constraints range) in
  let column_pos := to_int (to_size_t (string_find map_str ":" 0 + 1)) in
  constraints ←
    (if negb (to_size_t column_pos =? npos)
     then
       constraints_str ← string_substr map_str (to_size_t column_pos)
         (to_size_t (map_end - column_pos + 1));
       Done (constraint.parse constraints constraints_str)
     else Done constraints);
  Done {| parameters := space.empty_space;
          domain_name := domain_name;
          range_name := range_name;
          domain := domain;
          range := range;
          constraints := constraints |}.

(** [std::string get_str()]. *)
Definition get_str (m : t) : string :=
  let result :=
    "{" +:+ domain_name m +:+ "[" +:+ space.get_str (domain m) +:+ "] ->" +:+
    range_name m +:+ "[" +:+ space.get_str (range m) +:+ "]" in
  let result :=
    if negb (constraint.empty (constraints m))
    then result +:+ " : " +:+ constraint.get_str (constraints m)
    else result in
  let result := result +:+ " }" in
  result.

End map.

End parser.

(** ** Substitution in a dimension list, in the words of the specification

    Each element equal to [in_] becomes the two elements [out1], [out2];
    every other element stays, in its place. *)
Definition substituted (in_ out1 out2 : string) (l : list string) : list string :=
  flat_map (fun dim => if decide (dim = in_) then [out1; out2] else [dim]) l.

(** ** Map texts, in the words of the specification

    [lacks ch s]: the character [ch] does not occur in [s];
    [free_of chars s]: none of the characters of [chars] does. *)
Fixpoint lacks (ch : ascii) (s : string) : bool :=
  match s with
  | EmptyString => true
  | String c s' => negb (Ascii.eqb c ch) && lacks ch s'
  end.

Definition free_of (chars s : string) : bool :=
  forallb (fun ch => lacks ch s) (list_ascii_of_string chars).


(** A map text: what may precede the opening brace, the name and the
    dimensions of the domain, the arrow, the name and the dimensions of
    the range, the colon, the constraints, the closing brace and what
    follows it. *)
Definition map_text (pre dn d mid rn r w c post : string) : string :=
  pre +:+ "{" +:+ dn +:+ "[" +:+ d +:+ "]" +:+ mid +:+ "->" +:+ rn +:+
  "[" +:+ r +:+ "]" +:+ w +:+ ":" +:+ c +:+ "}" +:+ post.


(** The length of a text, as a position. *)
Definition zlen (s : string) : Z := Z.of_nat (String.length s).

(** The structural characters that names, dimension lists and the blanks
    between the pieces must not contain for the pieces to be found. *)
Definition structural : string := "{}[]:>".

(** ** The identity map of a set, in the words of the specification

    "The identity map from the iteration domain to a range whose tuple
    name equals" [range_name]: the pairs [(x, x)] with [x] in [d], from
    the space of [d] to the same space under the name [range_name]. *)
Definition identity_on (d : isl_set) (range_name : string) : isl_map :=
  {| map_params := set_params d;
     map_in := set_tuple d;
     map_out := set_name (set_tuple d) range_name;
     map_pairs := fun env x y => y = x /\ set_contains d env x |}.

(** [d] under another tuple name. *)
Definition renamed (d : isl_set) (n : string) : isl_set :=
  {| set_params := set_params d;
     set_tuple := set_name (set_tuple d) n;
     set_points := set_points d |}.


(** ** Sample objects *)

(** A function with [S0] tagged parallel at level 1 and nothing tagged
    for vectorisation. *)
Definition tagged_function : function.t :=
  {| function.name := "f"; function.arguments := [];
     function.invariants := []; function.ctx := 1%positive;
     function.ast := None;
     function.parallel_dimensions := {[ "S0"%string := 1 ]};
     function.vector_dimensions := ∅;
     function.body := []; function.halide_stmt := None;
     function.buffers_list := ∅ |}.

(** A function without computations, and a store that holds it at
    address 1. *)
Definition empty_function : function.t :=
  {| function.name := "f"; function.arguments := [];
     function.invariants := []; function.ctx := 1%positive;
     function.ast := None;
     function.parallel_dimensions := ∅;
     function.vector_dimensions := ∅;
     function.body := []; function.halide_stmt := None;
     function.buffers_list := ∅ |}.

Definition one_function : gmap loc function.t := {[ 1%positive := empty_function ]}.

(** The iteration domain [{S0[i,j]: 0<=i<10 and 0<=j<20}]. *)
Definition S0_domain : isl_set :=
  {| set_params := [];
     set_tuple := {| tuple_name := Some "S0"%string;
                     tuple_dims := ["i"%string; "j"%string] |};
     set_points := fun _ x =>
       match x with
       | [i; j] => 0 <= i < 10 /\ 0 <= j < 20
       | _ => False
       end |}.

(** The same points under the tuple name [S1]. *)
Definition S1_domain : isl_set :=
  {| set_params := [];
     set_tuple := {| tuple_name := Some "S1"%string;
                     tuple_dims := ["i"%string; "j"%string] |};
     set_points := set_points S0_domain |}.

(** The text of [S0_domain]. *)
Definition S0_text : string := "{S0[i,j]: 0<=i<10 and 0<=j<20}".

(** The text isl prints for the identity map of [S0_domain] into a tuple
    named [n]. *)
Definition S0_access_text (n : string) : string :=
  "{ S0[i, j] -> " +:+ n +:+ "[i' = i, j' = j] : 0 <= i <= 9 and 0 <= j <= 19 }".

(** A reader and a printer for the sample.  The printer writes the text
    of the identity map of [S0_domain] into the range tuple of the map
    it is given.  The reader knows the text of [S0_domain] and the text
    of its identity map into [b0], and no other text: isl reads a tuple
    name as one token, so that it does not read the text it prints for a
    range tuple named [b 0]. *)
#[local] Instance sample_text : isl_text :=
  {| isl_set_read_from_str := fun _ str =>
       if bool_decide (str = S0_text) then Some S0_domain else None;
     isl_map_read_from_str := fun _ str =>
       if bool_decide (str = S0_access_text "b0")
       then Some (identity_on S0_domain "b0") else None;
     isl_printer_print_map := fun m =>
       S0_access_text (default ""%string (tuple_name (map_out m))) |}.

(** The computation [S0] as its constructor leaves it. *)
Definition S0_computation : computation.t :=
  {| computation.ctx := 1%positive;
     computation.time_processor_domain := None;
     computation.iteration_domain := Some S0_domain;
     computation.schedule := Some (identity_on S0_domain "");
     computation.function := Some 1%positive;
     computation.name := "S0";
     computation.expression := None;
     computation.stmt := None;
     computation.access := None;
     computation.index_expr := None |}.

(** A function that has registered a buffer under the name [b0], a
    store that holds it at address 1 and another function at address 2. *)
Definition function_with_b0 : function.t :=
  {| function.name := "f"; function.arguments := [];
     function.invariants := []; function.ctx := 1%positive;
     function.ast := None;
     function.parallel_dimensions := {[ "S0"%string := 1 ]};
     function.vector_dimensions := ∅;
     function.body := [5%positive]; function.halide_stmt := None;
     function.buffers_list :=
       {[ "b0"%string := Halide.mkBuffer (Halide.UInt 8) [10; 20] None "b0" ]} |}.

Definition two_functions : gmap loc function.t :=
  {[ 1%positive := function_with_b0; 2%positive := empty_function ]}.

(** An [add_invariant] that keeps the name of the invariant. *)
Definition sample_add_invariant (f : function.t) (i : invariant.t) : function.t :=
  {| function.name := function.name f;
     function.arguments := function.arguments f;
     function.invariants := function.invariants f ++ [invariant.name i];
     function.ctx := function.ctx f; function.ast := function.ast f;
     function.parallel_dimensions := function.parallel_dimensions f;
     function.vector_dimensions := function.vector_dimensions f;
     function.body := function.body f;
     function.halide_stmt := function.halide_stmt f;
     function.buffers_list := function.buffers_list f |}.

(** The iteration domain [[N] -> { S0[i] : 0 <= i < N }], the schedule
    [[M] -> { S0[i] -> [t] : t = i + M }], whose parameter is not one of
    the domain, and a computation that holds them. *)
Definition SN_domain : isl_set :=
  {| set_params := ["N"%string];
     set_tuple := {| tuple_name := Some "S0"%string; tuple_dims := ["i"%string] |};
     set_points := fun env x =>
       match x with
       | [i] => 0 <= i < env "N"%string
       | _ => False
       end |}.

Definition shift_schedule : isl_map :=
  {| map_params := ["M"%string];
     map_in := {| tuple_name := Some "S0"%string; tuple_dims := ["i"%string] |};
     map_out := {| tuple_name := None; tuple_dims := ["t"%string] |};
     map_pairs := fun env x y =>
       match x, y with
       | [i], [t] => t = i + env "M"%string
       | _, _ => False
       end |}.

Definition SN_computation : computation.t :=
  {| computation.ctx := 1%positive;
     computation.time_processor_domain := None;
     computation.iteration_domain := Some SN_domain;
     computation.schedule := Some shift_schedule;
     computation.function := Some 1%positive;
     computation.name := "S0";
     computation.expression := None;
     computation.stmt := None;
     computation.access := None;
     computation.index_expr := None |}.

(** The text of a schedule of [S0], as isl prints it. *)
Definition S0_schedule_text : string :=
  "{ S0[i, j] -> [i, j] : 0 <= i <= 9 and 0 <= j <= 19 }".

(** The buffer [b0] of 10 x 20 bytes. *)
Definition b0 : buffer.t :=
  {| buffer.name := "b0"; buffer.nb_dims := 2; buffer.dim_sizes := [10; 20];
     buffer.type := Halide.UInt 8; buffer.data := None;
     buffer.fct := Some 1%positive; buffer.is_arg := true;
     buffer.argtype := argument.output |}.


(** * Properties *)

(** ** Outcomes *)

Lemma assert_done (b : bool) (msg : string) :
  b = true -> assert b msg = Done tt.
Proof. intros ->. reflexivity. Qed.

Lemma bind_done {A B : Type} (a : A) (k : A -> outcome B) :
  Done a ≫= k = k a.
Proof. reflexivity. Qed.

Lemma bind_inv {A B : Type} (m : outcome A) (k : A -> outcome B) (b : B) :
  m ≫= k = Done b -> exists a, m = Done a /\ k a = Done b.
Proof. destruct m as [a|f]; [eauto | discriminate]. Qed.

Lemma assert_inv (b : bool) (msg : string) (u : unit) :
  assert b msg = Done u -> b = true.
Proof. destruct b; [reflexivity | discriminate]. Qed.

Lemma nonempty_iff (s : string) : nonempty s = true <-> s <> ""%string.
Proof.
  destruct s as [|c s]; cbn; split; intros; try congruence; reflexivity.
Qed.

(** Splits a successful run [m ≫= k = Done b] in the hypothesis [H]. *)
Ltac split_run H :=
  repeat match type of H with
  | assert _ _ ≫= _ = Done _ =>
      let u := fresh "u" in let Hu := fresh "Hassert" in
      apply bind_inv in H; destruct H as (u & Hu & H);
      apply assert_inv in Hu
  | _ ≫= _ = Done _ =>
      let a := fresh "a" in let Ha := fresh "Hrun" in
      apply bind_inv in H; destruct H as (a & Ha & H)
  end.

(** ** Parallel and vector tags *)

Lemma should_parallelize_returns (F : function.t) (c : string) (lev : Z) :
  c <> ""%string -> 0 <= lev ->
  function.should_parallelize F c lev =
    Done (bool_decide (function.parallel_dimensions F !! c = Some lev)).
Proof.
  intros Hc Hlev. unfold function.should_parallelize.
  rewrite (assert_done (nonempty c)) by (by apply nonempty_iff).
  rewrite bind_done.
  rewrite (assert_done (0 <=? lev)) by (by apply Z.leb_le).
  rewrite bind_done.
  destruct (function.parallel_dimensions F !! c) as [second|] eqn:E.
  - f_equal. destruct (Z.eqb_spec second lev) as [->|Hne].
    + by rewrite bool_decide_eq_true_2.
    + rewrite bool_decide_eq_false_2; [done | congruence].
  - by rewrite bool_decide_eq_false_2.
Qed.

Lemma should_vectorize_returns (F : function.t) (c : string) (lev : Z) :
  c <> ""%string -> 0 <= lev ->
  function.should_vectorize F c lev =
    Done (bool_decide (function.vector_dimensions F !! c = Some lev)).
Proof.
  intros Hc Hlev. unfold function.should_vectorize.
  rewrite (assert_done (nonempty c)) by (by apply nonempty_iff).
  rewrite bind_done.
  rewrite (assert_done (0 <=? lev)) by (by apply Z.leb_le).
  rewrite bind_done.
  destruct (function.vector_dimensions F !! c) as [second|] eqn:E.
  - f_equal. destruct (Z.eqb_spec second lev) as [->|Hne].
    + by rewrite bool_decide_eq_true_2.
    + rewrite bool_decide_eq_false_2; [done | congruence].
  - by rewrite bool_decide_eq_false_2.
Qed.

(** C9.  For a function [F], a non-empty computation name [c] and a level
    [lev >= 0], [should_parallelize] returns a boolean, and it returns
    true exactly when [parallel_dimensions] maps [c] to [lev]; it returns
    false when [c] has no entry.  The same holds of [should_vectorize]
    and [vector_dimensions]. *)
Theorem should_parallelize_vectorize_iff (F : function.t) (c : string) (lev : Z) :
  c <> ""%string -> 0 <= lev ->
  (exists b, function.should_parallelize F c lev = Done b /\
     (b = true <-> function.parallel_dimensions F !! c = Some lev) /\
     (function.parallel_dimensions F !! c = None -> b = false)) /\
  (exists b, function.should_vectorize F c lev = Done b /\
     (b = true <-> function.vector_dimensions F !! c = Some lev) /\
     (function.vector_dimensions F !! c = None -> b = false)).
Proof.
  intros Hc Hlev. split.
  - eexists. split; [by apply should_parallelize_returns |]. split.
    + apply bool_decide_eq_true.
    + intros E. apply bool_decide_eq_false. congruence.
  - eexists. split; [by apply should_vectorize_returns |]. split.
    + apply bool_decide_eq_true.
    + intros E. apply bool_decide_eq_false. congruence.
Qed.

Lemma should_parallelize_vectorize_iff_witness :
  ("S0"%string <> ""%string /\ 0 <= 1) /\
  (exists b, function.should_parallelize tagged_function "S0" 1 = Done b /\
     (b = true <-> function.parallel_dimensions tagged_function !! "S0"%string = Some 1) /\
     (function.parallel_dimensions tagged_function !! "S0"%string = None -> b = false)) /\
  (exists b, function.should_vectorize tagged_function "S0" 1 = Done b /\
     (b = true <-> function.vector_dimensions tagged_function !! "S0"%string = Some 1) /\
     (function.vector_dimensions tagged_function !! "S0"%string = None -> b = false)).
Proof.
  split; [split; [discriminate | lia] |].
  apply (should_parallelize_vectorize_iff tagged_function "S0" 1);
    [discriminate | lia].
Defined.

Example should_parallelize_tagged :
  function.should_parallelize tagged_function "S0" 1 = Done true /\
  function.should_parallelize tagged_function "S0" 0 = Done false /\
  function.should_parallelize tagged_function "S1" 1 = Done false /\
  function.should_vectorize tagged_function "S0" 1 = Done false.
Proof. repeat split; vm_compute; reflexivity. Qed.

(** ** Buffers *)

Lemma buffer_ctor_argtype name nb_dims dim_sizes type data is_argument argt fct
    (fs : gmap loc function.t) b fs' :
  buffer.ctor name nb_dims dim_sizes type data is_argument argt fct fs
    = Done (b, fs') ->
  buffer.argtype b = if is_argument then argt else argument.internal.
Proof.
  unfold buffer.ctor. intros H. split_run H.
  injection H as <- _. reflexivity.
Qed.

(** C10.  A buffer constructed with [is_argument == false] has argument
    type [internal], whatever kind was passed to the constructor; a buffer
    constructed with [is_argument == true] has exactly the kind passed. *)
Theorem get_argument_type_of_ctor name nb_dims dim_sizes type data is_argument
    argt fct (fs : gmap loc function.t) b fs' :
  buffer.ctor name nb_dims dim_sizes type data is_argument argt fct fs
    = Done (b, fs') ->
  (is_argument = false -> buffer.get_argument_type b = argument.internal) /\
  (is_argument = true -> buffer.get_argument_type b = argt).
Proof.
  intros H. apply buffer_ctor_argtype in H. unfold buffer.get_argument_type.
  rewrite H. split; intros ->; reflexivity.
Qed.

Lemma get_argument_type_of_ctor_witness :
  exists b fs',
    buffer.ctor "b0" 2 [10; 20] (Halide.UInt 8) None false argument.output
      (Some 1%positive) one_function = Done (b, fs') /\
    (false = false -> buffer.get_argument_type b = argument.internal) /\
    (false = true -> buffer.get_argument_type b = argument.output).
Proof.
  eexists _, _. split; [vm_compute; reflexivity |].
  refine (get_argument_type_of_ctor "b0" 2 [10; 20] (Halide.UInt 8) None false
            argument.output (Some 1%positive) one_function _ _ _).
  vm_compute. reflexivity.
Defined.

Example get_argument_type_argument :
  exists b fs',
    buffer.ctor "b0" 2 [10; 20] (Halide.UInt 8) None true argument.output
      (Some 1%positive) one_function = Done (b, fs') /\
    buffer.get_argument_type b = argument.output.
Proof. eexists _, _. split; vm_compute; reflexivity. Qed.

(** C8, as stated, fails: a buffer of one dimension of size 0 is
    constructed; no assertion looks at the entries of [dim_sizes]. *)
Lemma buffer_ctor_accepts_zero_size :
  Exists (fun n => n <= 0) [0] /\
  is_done (buffer.ctor "b0" 1 [0] (Halide.UInt 8) None true argument.input
             (Some 1%positive) one_function) = true.
Proof. split; [constructor; lia | vm_compute; reflexivity]. Qed.

Lemma to_size_t_small (n : Z) : 0 <= n < 2 ^ 31 -> to_size_t n = n.
Proof. intros Hn. unfold to_size_t. apply Z.mod_small. lia. Qed.

(** Which assertion of the constructor fails, if any, is decided by the
    name, [nb_dims], the number of entries of [dim_sizes] and the parent
    pointer. *)
Lemma buffer_ctor_assertions name nb_dims dim_sizes type data is_argument argt
    fct (fs : gmap loc function.t) :
  - 2 ^ 31 <= nb_dims < 2 ^ 31 ->
  is_assertion_failure
    (buffer.ctor name nb_dims dim_sizes type data is_argument argt fct fs)
  = negb (nonempty name && (0 <? nb_dims) &&
          (nb_dims =? Z.of_nat (length dim_sizes)) && bool_decide (fct ≠ None)).
Proof.
  intros Hint. unfold buffer.ctor.
  destruct (nonempty name); [|reflexivity].
  destruct (Z.ltb_spec 0 nb_dims) as [Hpos|Hneg]; [|reflexivity].
  cbn [assert andb]. rewrite bind_done, to_size_t_small by lia.
  destruct (nb_dims =? Z.of_nat (length dim_sizes)); [|reflexivity].
  destruct fct as [l|]; [|reflexivity]. cbn.
  destruct (fs !! l); reflexivity.
Qed.

(** C8, amended.  For an [int] [nb_dims], the constructor stops on one
    of its assertions exactly when the name is empty, [nb_dims <= 0],
    [dim_sizes] does not have [nb_dims] entries or the parent pointer is
    null.  It returns only when the name is not empty, [nb_dims > 0],
    [dim_sizes] has [nb_dims] entries and the parent pointer is not
    null.  No assertion looks at the entries of [dim_sizes]: with other
    entries, as many, the same assertions pass and fail. *)
Theorem buffer_ctor_checks name nb_dims dim_sizes type data is_argument argt fct
    (fs : gmap loc function.t) :
  - 2 ^ 31 <= nb_dims < 2 ^ 31 ->
  let r := buffer.ctor name nb_dims dim_sizes type data is_argument argt fct fs in
  (is_assertion_failure r = true <->
     name = ""%string \/ nb_dims <= 0 \/
     nb_dims <> Z.of_nat (length dim_sizes) \/ fct = None) /\
  (is_done r = true ->
     name <> ""%string /\ 0 < nb_dims /\
     nb_dims = Z.of_nat (length dim_sizes) /\ fct <> None) /\
  (forall dim_sizes' : list Z,
     length dim_sizes' = length dim_sizes ->
     is_assertion_failure
       (buffer.ctor name nb_dims dim_sizes' type data is_argument argt fct fs)
     = is_assertion_failure r).
Proof.
  intros Hint r.
  assert (Hr : is_assertion_failure r = true <->
                 name = ""%string \/ nb_dims <= 0 \/
                 nb_dims <> Z.of_nat (length dim_sizes) \/ fct = None).
  { subst r. rewrite buffer_ctor_assertions by done.
    rewrite negb_true_iff, !andb_false_iff.
    rewrite Z.ltb_ge, Z.eqb_neq, bool_decide_eq_false.
    rewrite <- not_true_iff_false, nonempty_iff.
    destruct (decide (name = ""%string)), (decide (fct = None)); tauto. }
  split_and!.
  - exact Hr.
  - intros Hdone.
    assert (Hna : is_assertion_failure r <> true).
    { destruct r as [?|[]]; done. }
    rewrite Hr in Hna.
    destruct (decide (name = ""%string)), (decide (fct = None)); try tauto.
    split_and!; try done; lia.
  - intros dim_sizes' Hlen. subst r.
    rewrite !buffer_ctor_assertions by done. by rewrite Hlen.
Qed.

Lemma buffer_ctor_checks_witness :
  - 2 ^ 31 <= 1 < 2 ^ 31 /\
  let r := buffer.ctor "b0" 1 [0] (Halide.UInt 8) None true argument.input
             (Some 1%positive) one_function in
  (is_assertion_failure r = true <->
     "b0"%string = ""%string \/ 1 <= 0 \/
     1 <> Z.of_nat (length [0]) \/ Some 1%positive = None) /\
  (is_done r = true ->
     "b0"%string <> ""%string /\ 0 < 1 /\
     1 = Z.of_nat (length [0]) /\ Some 1%positive <> None) /\
  (forall dim_sizes' : list Z,
     length dim_sizes' = length [0] ->
     is_assertion_failure
       (buffer.ctor "b0" 1 dim_sizes' (Halide.UInt 8) None true argument.input
          (Some 1%positive) one_function)
     = is_assertion_failure r).
Proof.
  split; [lia |].
  apply (buffer_ctor_checks "b0" 1 [0] (Halide.UInt 8) None true argument.input
           (Some 1%positive) one_function). lia.
Defined.

(** ** The cached AST *)

(** C7 on the code: the constructor of [function] leaves [ast] as the
    storage held it, and [get_isl_ast] returns that pointer when it is
    not null, although [gen_isl_ast] never ran. *)
Theorem get_isl_ast_of_fresh_function (storage_ast : isl_ast_node)
    (fresh_ctx : isl_ctx) :
  function.ctor (Some storage_ast) fresh_ctx "f" ≫= function.get_isl_ast
    = Done (Some storage_ast).
Proof. reflexivity. Qed.

(** On zeroed storage the assertion of [get_isl_ast] does fail. *)
Lemma get_isl_ast_of_zeroed_function (fresh_ctx : isl_ctx) (name : string) :
  name <> ""%string ->
  is_assertion_failure
    (function.ctor None fresh_ctx name ≫= function.get_isl_ast) = true.
Proof.
  intros Hn. unfold function.ctor.
  rewrite assert_done by (by apply nonempty_iff). reflexivity.
Qed.

(** ** The isl operations the header composes *)

Lemma tuple_is_equal_refl (t : isl_tuple) : tuple_is_equal t t = true.
Proof.
  unfold tuple_is_equal. rewrite !bool_decide_eq_true_2; reflexivity.
Qed.

(** Aligning a list of parameters with itself changes nothing. *)
Lemma isl_align_params_same (ps : list string) : isl_align_params ps ps = ps.
Proof.
  unfold isl_align_params.
  assert (Hfilter : forall l, (forall p, p ∈ l -> p ∈ ps) ->
            filter (fun p => p ∉ ps) l = []).
  { induction l as [|p l IH]; intros Hl; [reflexivity |].
    rewrite filter_cons_False.
    - apply IH. intros q Hq. apply Hl. by right.
    - intros Hp. apply Hp, Hl. by left. }
  rewrite Hfilter by done. apply app_nil_r.
Qed.

(** The aligned parameters are those of either argument. *)
Lemma elem_of_isl_align_params (model alignee : list string) (p : string) :
  p ∈ isl_align_params model alignee <-> p ∈ model \/ p ∈ alignee.
Proof.
  unfold isl_align_params. rewrite elem_of_app, list_elem_of_filter.
  destruct (decide (p ∈ model)); tauto.
Qed.

(** The four calls that [set_identity_schedule] and [bind_to] share build
    the identity map of the iteration domain, named as asked. *)
Lemma identity_map_built (d : isl_set) (n : string) :
  name_ok n = true ->
  isl_map_coalesce
    (isl_map_set_tuple_name
       (isl_map_intersect_domain
          (isl_map_identity (isl_space_map_from_set (isl_set_get_space (Some d))))
          (isl_set_copy (Some d)))
       isl_dim_out n)
  = Some (identity_on d n).
Proof.
  intros Hn.
  unfold isl_set_get_space, isl_space_map_from_set, isl_map_identity,
    isl_set_copy, isl_map_coalesce.
  rewrite bool_decide_eq_true_2 by reflexivity.
  unfold isl_map_intersect_domain. cbn [map_in map_out map_params map_pairs].
  rewrite tuple_is_equal_refl, isl_align_params_same.
  unfold isl_map_set_tuple_name. cbn [map_in map_out map_params map_pairs].
  rewrite Hn. reflexivity.
Qed.

Lemma identity_map_refused (d : option isl_set) (n : string) :
  name_ok n = false ->
  isl_map_coalesce
    (isl_map_set_tuple_name
       (isl_map_intersect_domain
          (isl_map_identity (isl_space_map_from_set (isl_set_get_space d)))
          (isl_set_copy d))
       isl_dim_out n)
  = None.
Proof.
  intros Hn. unfold isl_map_coalesce, isl_map_set_tuple_name.
  destruct (isl_map_intersect_domain _ _); [rewrite Hn |]; reflexivity.
Qed.

(** The image of a set under its own identity map is the set, under the
    name of the range. *)
Lemma apply_identity_on (d : isl_set) (n : string) :
  exists t, isl_set_apply (Some d) (Some (identity_on d n)) = Some t /\
            set_equal t (renamed d n).
Proof.
  unfold isl_set_apply. cbn [identity_on map_in map_params map_out].
  rewrite tuple_is_equal_refl, isl_align_params_same.
  eexists. split; [reflexivity |].
  split; [reflexivity |]. split; [reflexivity |].
  intros env y. unfold set_contains, map_contains; cbn. split.
  - intros (Hy & x & (Hx & Hd) & _ & _ & -> & _). done.
  - intros (Hy & Hd). split; [done |]. exists y. repeat split; done.
Qed.

(** ** Computations *)

Lemma get_iteration_domain_some (c : computation.t) (d : isl_set) :
  computation.iteration_domain c = Some d ->
  computation.get_iteration_domain c = Done (Some d).
Proof.
  intros E. unfold computation.get_iteration_domain. rewrite E. reflexivity.
Qed.

Lemma get_iteration_domain_inv (c : computation.t) (p : option isl_set) :
  computation.get_iteration_domain c = Done p ->
  exists d, p = Some d /\ computation.iteration_domain c = Some d.
Proof.
  unfold computation.get_iteration_domain. intros H. split_run H.
  injection H as <-. apply bool_decide_eq_true in Hassert.
  destruct (computation.iteration_domain c) as [d|]; [eauto | done].
Qed.

Lemma set_identity_schedule_some (c : computation.t) (d : isl_set) :
  computation.iteration_domain c = Some d ->
  computation.set_identity_schedule c =
    Done (computation.set_schedule c (Some (identity_on d ""))).
Proof.
  intros E. unfold computation.set_identity_schedule.
  rewrite (get_iteration_domain_some c d E). rewrite !bind_done.
  rewrite identity_map_built by reflexivity. reflexivity.
Qed.

(** The image of a set that lives in the domain space of the map: a
    set in the range space, over the aligned parameters, whose points
    are the images of the points. *)
Lemma isl_set_apply_some (d : isl_set) (m : isl_map) :
  tuple_is_equal (set_tuple d) (map_in m) = true ->
  exists t,
    isl_set_apply (Some d) (Some m) = Some t /\
    set_tuple t = map_out m /\
    set_params t = isl_align_params (set_params d) (map_params m) /\
    forall env y, set_contains t env y <->
      exists x, set_contains d env x /\ map_contains m env x y.
Proof.
  intros Ht. unfold isl_set_apply. rewrite Ht.
  eexists. split_and!; try reflexivity.
  intros env y. unfold set_contains at 1; cbn. split.
  - intros (_ & Hx). exact Hx.
  - intros (x & Hx & Hxy). split; [apply Hxy | eauto].
Qed.

(** C2.  On a computation whose iteration domain and schedule are not
    null, [gen_time_processor_domain] returns; the time-processor domain
    is then [isl_set_apply] of the iteration domain and the schedule, and
    no other member has changed.  When the domain tuple of the schedule
    is the tuple of the iteration domain (same name, same number of
    dimensions), the time-processor domain is not null: it is a set in
    the range tuple of the schedule, over the parameters of the
    iteration domain followed by those of the schedule that the domain
    lacks, and its points are exactly the images under the schedule of
    the points of the iteration domain.  When the two tuples differ isl
    reports an error and the time-processor domain is null. *)
Theorem gen_time_processor_domain_apply (c : computation.t) (d : isl_set)
    (m : isl_map) :
  computation.iteration_domain c = Some d ->
  computation.schedule c = Some m ->
  exists c',
    computation.gen_time_processor_domain c = Done c' /\
    computation.time_processor_domain c' = isl_set_apply (Some d) (Some m) /\
    computation.iteration_domain c' = Some d /\
    computation.schedule c' = Some m /\
    c' = computation.set_time_processor_domain c
           (computation.time_processor_domain c') /\
    (tuple_is_equal (set_tuple d) (map_in m) = true ->
     exists t,
       computation.time_processor_domain c' = Some t /\
       set_tuple t = map_out m /\
       set_params t
         = set_params d ++ filter (fun p => p ∉ set_params d) (map_params m) /\
       (forall p, p ∈ set_params t <-> p ∈ set_params d \/ p ∈ map_params m) /\
       (forall env y, set_contains t env y <->
          exists x, set_contains d env x /\ map_contains m env x y)) /\
    (tuple_is_equal (set_tuple d) (map_in m) = false ->
     computation.time_processor_domain c' = None).
Proof.
  intros Hd Hm. unfold computation.gen_time_processor_domain.
  rewrite (get_iteration_domain_some c d Hd). rewrite !bind_done.
  unfold computation.get_schedule. rewrite Hm.
  unfold isl_set_copy, isl_map_copy.
  rewrite !(assert_done (bool_decide _)) by (by apply bool_decide_eq_true_2).
  rewrite !bind_done.
  eexists. split; [reflexivity |].
  cbn [computation.time_processor_domain computation.iteration_domain
       computation.schedule computation.set_time_processor_domain].
  split_and!; try done.
  - intros Ht.
    destruct (isl_set_apply_some d m Ht) as (t & Happly & Htuple & Hps & Hpts).
    exists t. split_and!; try done.
    intros p. rewrite Hps. apply elem_of_isl_align_params.
  - intros Ht. unfold isl_set_apply. by rewrite Ht.
Qed.

Section computations.
Context `{isl_text}.

(** What a successful run of [init_computation] leaves behind. *)
Lemma init_computation_inv this e0 str fct (fs : gmap loc function.t) c fs' :
  computation.init_computation this e0 str fct fs = Done (c, fs') ->
  exists l f d n,
    fct = Some l /\ fs !! l = Some f /\ str <> ""%string /\
    isl_set_read_from_str (function.ctx f) str = Some d /\
    tuple_name (set_tuple d) = Some n /\
    fs' = <[l := function.add_computation f this]> fs /\
    c = {| computation.ctx := function.ctx f;
           computation.time_processor_domain := None;
           computation.iteration_domain := Some d;
           computation.schedule := Some (identity_on d "");
           computation.function := Some l;
           computation.name := n;
           computation.expression := e0;
           computation.stmt := None;
           computation.access := None;
           computation.index_expr := None |}.
Proof.
  unfold computation.init_computation. intros Hrun. split_run Hrun.
  apply bool_decide_eq_true in Hassert. apply nonempty_iff in Hassert0.
  destruct fct as [l|]; [|done]. cbn in Hrun0.
  destruct (fs !! l) as [f|] eqn:Hf; [|done]. injection Hrun0 as <-.
  unfold function.get_ctx in *.
  destruct (isl_set_read_from_str (function.ctx f) str) as [d|] eqn:Hd;
    [|done].
  cbn in Hrun1. destruct (tuple_name (set_tuple d)) as [n|] eqn:Hn; [|done].
  injection Hrun1 as <-.
  erewrite (set_identity_schedule_some _ d) in Hrun2 by reflexivity.
  injection Hrun2 as <-. injection Hrun as <- <-.
  exists l, f, d, n. repeat split; done.
Qed.

(** [init_computation] returns on every non-empty string that isl reads
    as a set with a named tuple. *)
Lemma init_computation_returns this e0 str l f d n (fs : gmap loc function.t) :
  fs !! l = Some f -> str <> ""%string ->
  isl_set_read_from_str (function.ctx f) str = Some d ->
  tuple_name (set_tuple d) = Some n ->
  exists c fs', computation.init_computation this e0 str (Some l) fs
                  = Done (c, fs').
Proof.
  intros Hf Hstr Hd Hn. unfold computation.init_computation.
  rewrite (assert_done (bool_decide _)) by (by apply bool_decide_eq_true_2).
  rewrite bind_done.
  rewrite (assert_done (nonempty str)) by (by apply nonempty_iff).
  rewrite bind_done. cbn. rewrite Hf. cbn.
  unfold function.get_ctx. rewrite Hd. cbn. rewrite Hn. cbn.
  eauto.
Qed.

Lemma ctor_inv this str expr fct (fs : gmap loc function.t) c fs' :
  computation.ctor this str expr fct fs = Done (c, fs') ->
  exists c0, computation.init_computation this None str fct fs = Done (c0, fs') /\
             c = computation.set_expression c0 expr.
Proof.
  unfold computation.ctor. intros Hrun. split_run Hrun.
  destruct a as [c0 fs0]. injection Hrun as <- <-. eauto.
Qed.

(** C1.  After a computation has been constructed, applying its
    schedule to its iteration domain gives a set that is equal to the
    iteration domain under the tuple name [""]: the same parameters,
    the same tuple but for the name, the same points. *)
Theorem identity_schedule_neutral this str expr fct
    (fs : gmap loc function.t) c fs' :
  computation.ctor this str expr fct fs = Done (c, fs') ->
  exists d m t d0,
    computation.iteration_domain c = Some d /\
    computation.schedule c = Some m /\
    isl_set_apply (Some d) (Some m) = Some t /\
    isl_set_set_tuple_name (Some d) "" = Some d0 /\
    set_equal t d0.
Proof.
  intros Hrun. apply ctor_inv in Hrun as (c0 & Hinit & ->).
  apply init_computation_inv in Hinit
    as (l & f & d & n & _ & _ & _ & _ & _ & _ & ->).
  destruct (apply_identity_on d "") as (t & Ht & Heq).
  exists d, (identity_on d ""), t, (renamed d "").
  split_and!; done.
Qed.

(** C4.  For a non-empty string that isl reads as a set [d] whose tuple
    has a name [n], and a parent pointer to a function [f] of the
    store, the constructor returns a computation whose iteration domain
    is [d] and whose name is [n]; the parent's body is the old body
    followed by the address of the computation; the schedule is the
    identity map of [d] with the range tuple named [""]; [access],
    [index_expr] and [time_processor_domain] are null. *)
Theorem ctor_establishes this str expr l f d n (fs : gmap loc function.t) :
  fs !! l = Some f -> str <> ""%string ->
  isl_set_read_from_str (function.ctx f) str = Some d ->
  tuple_name (set_tuple d) = Some n ->
  exists c fs' f',
    computation.ctor this str expr (Some l) fs = Done (c, fs') /\
    computation.iteration_domain c = isl_set_read_from_str (function.ctx f) str /\
    computation.name c = n /\
    fs' !! l = Some f' /\
    function.body f' = function.body f ++ [this] /\
    this ∈ function.get_computations f' /\
    computation.function c = Some l /\
    computation.schedule c = Some (identity_on d "") /\
    computation.access c = None /\
    computation.index_expr c = None /\
    computation.time_processor_domain c = None.
Proof.
  intros Hf Hstr Hd Hn.
  destruct (init_computation_returns this None str l f d n fs Hf Hstr Hd Hn)
    as (c0 & fs' & Hinit).
  pose proof Hinit as Hinv.
  apply init_computation_inv in Hinv
    as (l' & f0 & d' & n' & [= <-] & Hf' & _ & Hd' & Hn' & -> & ->).
  rewrite Hf in Hf'. injection Hf' as <-.
  rewrite Hd in Hd'. injection Hd' as <-.
  rewrite Hn in Hn'. injection Hn' as <-.
  eexists _, _, (function.add_computation f this).
  split; [unfold computation.ctor; rewrite Hinit; reflexivity |].
  cbn. rewrite Hd, lookup_insert_eq.
  repeat split; try done.
  unfold function.get_computations; cbn. apply elem_of_app. right.
  apply list_elem_of_singleton. reflexivity.
Qed.


(** [bind_to] returns on a computation with an iteration domain when
    isl accepts the name of the buffer as a tuple name and prints a
    non-empty text. *)
Lemma bind_to_returns (c : computation.t) (b : buffer.t) (d : isl_set) :
  computation.iteration_domain c = Some d ->
  name_ok (buffer.name b) = true ->
  isl_printer_print_map (identity_on d (buffer.name b)) <> ""%string ->
  exists c', computation.bind_to c (Some b) = Done c'.
Proof.
  intros Hd Hn Hp. unfold computation.bind_to.
  rewrite (assert_done (bool_decide _)) by (by apply bool_decide_eq_true_2).
  rewrite (get_iteration_domain_some c d Hd). rewrite !bind_done.
  unfold buffer.get_name. rewrite identity_map_built by done.
  cbn [isl_map_to_str std_string]. rewrite bind_done.
  unfold computation.set_access.
  rewrite (assert_done (nonempty _)) by (by apply nonempty_iff).
  rewrite bind_done. eauto.
Qed.

End computations.

Lemma gen_time_processor_domain_apply_witness :
  exists c',
    computation.gen_time_processor_domain SN_computation = Done c' /\
    computation.time_processor_domain c'
      = isl_set_apply (Some SN_domain) (Some shift_schedule) /\
    computation.iteration_domain c' = Some SN_domain /\
    computation.schedule c' = Some shift_schedule /\
    c' = computation.set_time_processor_domain SN_computation
           (computation.time_processor_domain c') /\
    (tuple_is_equal (set_tuple SN_domain) (map_in shift_schedule) = true ->
     exists t,
       computation.time_processor_domain c' = Some t /\
       set_tuple t = map_out shift_schedule /\
       set_params t
         = set_params SN_domain
           ++ filter (fun p => p ∉ set_params SN_domain) (map_params shift_schedule) /\
       (forall p, p ∈ set_params t <->
                  p ∈ set_params SN_domain \/ p ∈ map_params shift_schedule) /\
       (forall env y, set_contains t env y <->
          exists x, set_contains SN_domain env x /\
                    map_contains shift_schedule env x y)) /\
    (tuple_is_equal (set_tuple SN_domain) (map_in shift_schedule) = false ->
     computation.time_processor_domain c' = None).
Proof.
  apply (gen_time_processor_domain_apply SN_computation SN_domain shift_schedule);
    reflexivity.
Defined.

(** In the sample the parameters [N] of the domain and [M] of the
    schedule are aligned to [N, M], and the time-processor domain is
    [[N, M] -> { [t] : M <= t < N + M }]. *)
Example SN_time_processor_domain :
  exists c' t,
    computation.gen_time_processor_domain SN_computation = Done c' /\
    computation.time_processor_domain c' = Some t /\
    set_params t = ["N"%string; "M"%string] /\
    set_tuple t = {| tuple_name := None; tuple_dims := ["t"%string] |} /\
    forall env o, set_contains t env [o] <->
                  env "M"%string <= o < env "N"%string + env "M"%string.
Proof.
  eexists _, _. split; [reflexivity |]. split; [reflexivity |].
  split; [reflexivity |]. split; [reflexivity |].
  intros env o. unfold set_contains, map_contains; cbn. split.
  - intros (_ & x & (Hx & Hd) & _ & _ & Hm).
    destruct x as [|i [|? ?]]; try done. lia.
  - intros Ho. split; [done |]. exists [o - env "M"%string].
    repeat split; try done; lia.
Qed.

Lemma S0_ctor_run :
  computation.ctor 5%positive S0_text None (Some 1%positive) one_function =
    Done (S0_computation,
          <[1%positive := function.add_computation empty_function 5%positive]>
            one_function).
Proof. reflexivity. Qed.

Lemma identity_schedule_neutral_witness :
  exists c fs',
    computation.ctor 5%positive S0_text None (Some 1%positive) one_function
      = Done (c, fs') /\
    exists d m t d0,
      computation.iteration_domain c = Some d /\
      computation.schedule c = Some m /\
      isl_set_apply (Some d) (Some m) = Some t /\
      isl_set_set_tuple_name (Some d) "" = Some d0 /\
      set_equal t d0.
Proof.
  eexists _, _. split; [exact S0_ctor_run |].
  exact (identity_schedule_neutral 5%positive S0_text None (Some 1%positive)
           one_function _ _ S0_ctor_run).
Defined.

Lemma ctor_establishes_witness :
  (one_function !! 1%positive = Some empty_function /\
   S0_text <> ""%string /\
   isl_set_read_from_str (function.ctx empty_function) S0_text = Some S0_domain /\
   tuple_name (set_tuple S0_domain) = Some "S0"%string) /\
  exists c fs' f',
    computation.ctor 5%positive S0_text None (Some 1%positive) one_function
      = Done (c, fs') /\
    computation.iteration_domain c =
      isl_set_read_from_str (function.ctx empty_function) S0_text /\
    computation.name c = "S0"%string /\
    fs' !! 1%positive = Some f' /\
    function.body f' = function.body empty_function ++ [5%positive] /\
    5%positive ∈ function.get_computations f' /\
    computation.function c = Some 1%positive /\
    computation.schedule c = Some (identity_on S0_domain "") /\
    computation.access c = None /\
    computation.index_expr c = None /\
    computation.time_processor_domain c = None.
Proof.
  split; [split_and!; done |].
  apply (ctor_establishes 5%positive S0_text None 1%positive empty_function
           S0_domain "S0" one_function); done.
Defined.

Lemma S0_bind_to_run :
  computation.bind_to S0_computation (Some b0) =
    Done (computation.mk 1%positive None (Some S0_domain)
            (Some (identity_on S0_domain "")) (Some 1%positive) "S0" None None
            (Some (identity_on S0_domain "b0")) None).
Proof. reflexivity. Qed.



(** In the sample, the text read back is the identity map into [b0]. *)
Example S0_bound_access :
  exists c',
    computation.bind_to S0_computation (Some b0) = Done c' /\
    computation.access c' = Some (identity_on S0_domain "b0").
Proof. eexists. split; [exact S0_bind_to_run | reflexivity]. Qed.

(** ** Dimension lists *)

Lemma string_compare_refl (s : string) : String.compare s s = Eq.
Proof.
  pose proof (String.compare_antisym s s) as H.
  destruct (String.compare s s); [reflexivity | discriminate | discriminate].
Qed.

Lemma replace_loop (in_ out1 out2 : string) (l acc : list string) :
  fold_left
    (fun new_dimensions dim =>
       match String.compare dim in_ with
       | Eq => push_back (push_back new_dimensions out1) out2
       | _ => push_back new_dimensions dim
       end) l acc
  = acc ++ substituted in_ out1 out2 l.
Proof.
  revert acc. induction l as [|dim l IH]; intros acc; cbn.
  - by rewrite app_nil_r.
  - rewrite IH. unfold push_back. destruct (decide (dim = in_)) as [->|Hne].
    + rewrite string_compare_refl. by rewrite <- !app_assoc.
    + destruct (String.compare dim in_) eqn:E.
      * apply String.compare_eq_iff in E. done.
      * by rewrite <- !app_assoc.
      * by rewrite <- !app_assoc.
Qed.

Lemma length_substituted (in_ out1 out2 : string) (l : list string) :
  length (substituted in_ out1 out2 l)
  = (length l + count_occ String.string_dec l in_)%nat.
Proof.
  induction l as [|dim l IH]; [reflexivity |].
  unfold substituted in *. cbn [flat_map count_occ]. rewrite length_app, IH.
  destruct (decide (dim = in_)) as [->|Hne].
  - destruct (String.string_dec in_ in_); [cbn; lia | done].
  - destruct (String.string_dec dim in_); [done | cbn; lia].
Qed.

(** C6.  [replace(in, out1, out2)] turns the dimension list into the list
    in which every element equal to [in] has become [out1] followed by
    [out2] and every other element is where it was; the new length is the
    old one plus the number of occurrences of [in]; the constraints of
    the space are not touched. *)
Theorem replace_substitutes (sp : parser.space.t) (in_ out1 out2 : string) :
  parser.space.dimensions (parser.space.replace sp in_ out1 out2)
    = substituted in_ out1 out2 (parser.space.dimensions sp) /\
  length (parser.space.dimensions (parser.space.replace sp in_ out1 out2))
    = (length (parser.space.dimensions sp)
       + count_occ String.string_dec (parser.space.dimensions sp) in_)%nat /\
  parser.space.constraints (parser.space.replace sp in_ out1 out2)
    = parser.space.constraints sp.
Proof.
  unfold parser.space.replace. cbn [parser.space.dimensions parser.space.constraints].
  rewrite replace_loop. cbn [app]. split_and!; [done | | done].
  apply length_substituted.
Qed.

Example replace_split_i :
  parser.space.dimensions
    (parser.space.replace (parser.space.mk [] ["i"; "j"; "i"]) "i" "i0" "i1")
  = ["i0"; "i1"; "j"; "i0"; "i1"].
Proof. reflexivity. Qed.

(** ** Strings *)

#[local] Arguments String.append : simpl nomatch.

Lemma append_assoc (a b c : string) : (a +:+ b) +:+ c = a +:+ b +:+ c.
Proof. induction a as [|x a IH]; simpl; [reflexivity | by rewrite IH]. Qed.

Lemma append_nil_r (a : string) : a +:+ EmptyString = a.
Proof. induction a as [|x a IH]; simpl; [reflexivity | by rewrite IH]. Qed.

Lemma length_append (a b : string) :
  String.length (a +:+ b) = (String.length a + String.length b)%nat.
Proof. induction a as [|x a IH]; simpl; [reflexivity | by rewrite IH]. Qed.

Lemma string_drop_append (a b : string) :
  string_drop (String.length a) (a +:+ b) = b.
Proof. induction a as [|x a IH]; simpl; [by destruct b | exact IH]. Qed.

Lemma string_take_append (a b : string) :
  string_take (String.length a) (a +:+ b) = a.
Proof.
  induction a as [|x a IH]; simpl; [by destruct b | by rewrite IH].
Qed.

Lemma lacks_append (ch : ascii) (a b : string) :
  lacks ch (a +:+ b) = lacks ch a && lacks ch b.
Proof.
  induction a as [|x a IH]; simpl; [reflexivity |].
  by rewrite IH, andb_assoc.
Qed.

(** ** Searching *)

Lemma find_from_char (ch : ascii) (a b : string) (i : nat) :
  lacks ch a = true ->
  find_from (String ch EmptyString) (a +:+ String ch b) i
  = Some (i + String.length a)%nat.
Proof.
  revert i. induction a as [|x a IH]; intros i Ha; simpl.
  - rewrite Ascii.eqb_refl. simpl. by rewrite Nat.add_0_r.
  - simpl in Ha. apply andb_true_iff in Ha as [Hx Ha].
    apply negb_true_iff in Hx. rewrite Hx. simpl.
    rewrite IH by done. simpl. by rewrite Nat.add_succ_r.
Qed.

Lemma starts_with_arrow (x : ascii) (a b : string) :
  lacks ">" a = true ->
  starts_with "->" (String x (a +:+ "->" +:+ b)) = false.
Proof.
  intros Ha. cbn [starts_with]. apply andb_false_iff. right.
  destruct a as [|y a]; simpl; [reflexivity |].
  simpl in Ha. apply andb_true_iff in Ha as [Hy _].
  apply negb_true_iff in Hy. by rewrite Hy.
Qed.

Lemma find_from_arrow (a b : string) (i : nat) :
  lacks ">" a = true ->
  find_from "->" (a +:+ "->" +:+ b) i = Some (i + String.length a)%nat.
Proof.
  revert i. induction a as [|x a IH]; intros i Ha.
  - simpl. by rewrite Nat.add_0_r.
  - simpl in Ha. apply andb_true_iff in Ha as [Hx Ha].
    change (String x a +:+ "->" +:+ b) with (String x (a +:+ "->" +:+ b)).
    cbn [find_from]. rewrite starts_with_arrow by done.
    rewrite IH by done. simpl. by rewrite Nat.add_succ_r.
Qed.

(** Starting the search later, but not after the first occurrence, finds
    the same occurrence. *)
Lemma find_from_later (pat s : string) (i r k : nat) :
  find_from pat s i = Some r -> (i + k <= r)%nat ->
  find_from pat (string_drop k s) (i + k) = Some r.
Proof.
  revert s i. induction k as [|k IH]; intros s i Hf Hk.
  - replace (i + 0)%nat with i by lia. by destruct s.
  - destruct s as [|x s]; cbn [find_from] in Hf.
    + destruct (starts_with pat EmptyString); [|discriminate].
      injection Hf as <-. lia.
    + destruct (starts_with pat (String x s)).
      * injection Hf as <-. lia.
      * cbn [string_drop]. replace (i + S k)%nat with (S i + k)%nat by lia.
        apply IH; [done | lia].
Qed.

Lemma string_drop_add (n k : nat) (s : string) :
  string_drop (n + k) s = string_drop k (string_drop n s).
Proof.
  revert s. induction n as [|n IH]; intros s; simpl.
  - by destruct s.
  - destruct s as [|x s]; [by destruct k | apply IH].
Qed.

(** ** Positions as numbers *)

Lemma zlen_append (a b : string) : zlen (a +:+ b) = zlen a + zlen b.
Proof. unfold zlen. rewrite length_append. lia. Qed.

Lemma zlen_cons (x : ascii) (s : string) : zlen (String x s) = 1 + zlen s.
Proof. unfold zlen. simpl String.length. lia. Qed.

Lemma zlen_nil : zlen EmptyString = 0.
Proof. reflexivity. Qed.

Lemma zlen_nonneg (s : string) : 0 <= zlen s.
Proof. unfold zlen. lia. Qed.

Lemma to_int_small (n : Z) : - 2 ^ 31 <= n < 2 ^ 31 -> to_int n = n.
Proof. intros Hn. unfold to_int. rewrite Z.mod_small; lia. Qed.

Lemma to_size_t_nonneg (n : Z) : 0 <= n < 2 ^ 64 -> to_size_t n = n.
Proof. intros Hn. unfold to_size_t. by apply Z.mod_small. Qed.

Lemma position_not_npos (n : Z) : 0 <= n < 2 ^ 31 -> negb (n =? npos) = true.
Proof.
  intros Hn. apply negb_true_iff, Z.eqb_neq. unfold npos. lia.
Qed.

(** Settles the bounds check at the head of [string_find] and
    [string_substr] when [lia] can. *)
Ltac settle_bounds :=
  match goal with
  | |- context [if ?a <=? ?b then _ else _] =>
      replace (a <=? b) with true by (symmetry; apply Z.leb_le; lia)
  | |- context [if ?a <? ?b then _ else _] =>
      replace (a <? b) with false by (symmetry; apply Z.ltb_ge; lia)
  end.

Lemma string_find_char (s x a b : string) (ch : ascii) :
  s = x +:+ a +:+ String ch b -> lacks ch a = true ->
  string_find s (String ch EmptyString) (zlen x) = zlen x + zlen a.
Proof.
  intros -> Ha. unfold string_find, zlen.
  rewrite !length_append. settle_bounds.
  rewrite Nat2Z.id, string_drop_append, find_from_char by done. lia.
Qed.

Lemma string_find_arrow (s x a b : string) (k : Z) :
  s = x +:+ a +:+ "->" +:+ b -> lacks ">" a = true ->
  0 <= k <= zlen a ->
  string_find s "->" (zlen x + k) = zlen x + zlen a.
Proof.
  intros -> Ha Hk. unfold string_find, zlen in *.
  rewrite !length_append. settle_bounds.
  replace (Z.to_nat (Z.of_nat (String.length x) + k))
    with (String.length x + Z.to_nat k)%nat by lia.
  rewrite string_drop_add, string_drop_append.
  rewrite (find_from_later "->" _ (String.length x)
             (String.length x + String.length a) (Z.to_nat k)).
  - lia.
  - by apply find_from_arrow.
  - lia.
Qed.

Lemma string_substr_middle (s x m y : string) (pos n : Z) :
  s = x +:+ m +:+ y -> pos = zlen x -> n = zlen m ->
  string_substr s pos n = Done m.
Proof.
  intros -> -> ->. unfold string_substr, zlen.
  rewrite !length_append. cbv zeta. settle_bounds.
  rewrite Nat2Z.id, string_drop_append.
  replace (Z.to_nat _) with (String.length m) by lia.
  by rewrite string_take_append.
Qed.

Lemma starts_with_inv (p s : string) :
  starts_with p s = true -> exists s', s = p +:+ s'.
Proof.
  revert s. induction p as [|x p IH]; intros s; simpl.
  - eauto.
  - destruct s as [|y s]; [discriminate |].
    intros [Hxy Hp]%andb_true_iff. apply Ascii.eqb_eq in Hxy as ->.
    destruct (IH s Hp) as [s' ->]. eauto.
Qed.



Lemma concat_cons (sep x : string) (l : list string) :
  l <> [] -> String.concat sep (x :: l) = x +:+ sep +:+ String.concat sep l.
Proof. destruct l; [done | reflexivity]. Qed.



(** The loop of the two [get_str] joins the elements. *)
Lemma join_loop_tail (sep : string) (l : list string)
    (f : nat -> string -> nat * string) (acc : string) :
  (forall i x, exists j, f i x = (S j, x)) ->
  fold_left
    (fun result '(i, x) =>
       let result := if bool_decide (i ≠ 0%nat) then result +:+ sep else result in
       result +:+ x)
    (imap f l) acc
  = acc +:+ fold_right (fun x t => sep +:+ x +:+ t) EmptyString l.
Proof.
  revert f acc. induction l as [|x l IH]; intros f acc Hf.
  - simpl. by rewrite append_nil_r.
  - rewrite imap_cons. cbn [fold_left fold_right].
    destruct (Hf 0%nat x) as [j ->]. cbn beta iota zeta.
    rewrite bool_decide_eq_true_2 by done.
    rewrite IH.
    + by rewrite !append_assoc.
    + intros i y. destruct (Hf (S i) y) as [j' Hj']. exists j'. exact Hj'.
Qed.

Lemma concat_tail (sep x : string) (l : list string) :
  String.concat sep (x :: l)
  = x +:+ fold_right (fun x t => sep +:+ x +:+ t) EmptyString l.
Proof.
  revert x. induction l as [|y l IH]; intros x.
  - simpl. by rewrite append_nil_r.
  - rewrite concat_cons by done. by rewrite IH.
Qed.

Lemma join_loop (sep : string) (l : list string) :
  fold_left
    (fun result '(i, x) =>
       let result := if bool_decide (i ≠ 0%nat) then result +:+ sep else result in
       result +:+ x)
    (imap pair l) EmptyString
  = String.concat sep l.
Proof.
  destruct l as [|x l]; [reflexivity |].
  rewrite imap_cons. cbn [fold_left]. cbn beta iota zeta.
  rewrite bool_decide_eq_false_2 by (intros Hne; by apply Hne).
  rewrite join_loop_tail by (intros i y; by exists i).
  simpl String.append at 1. by rewrite concat_tail.
Qed.

Lemma space_get_str (sp : parser.space.t) :
  parser.space.get_str sp = String.concat "," (parser.space.dimensions sp).
Proof. apply join_loop. Qed.

Lemma constraint_get_str (c : parser.constraint.t) :
  parser.constraint.get_str c
  = String.concat " and " (parser.constraint.constraints c).
Proof. apply join_loop. Qed.

Lemma free_of_lacks (chars s : string) (ch : ascii) :
  free_of chars s = true -> In ch (list_ascii_of_string chars) ->
  lacks ch s = true.
Proof.
  unfold free_of. intros H Hin. eapply forallb_forall in H; eauto.
Qed.

(** [lacks ch (a +:+ ... +:+ z) = true] from the hypotheses on the
    pieces. *)
Ltac lacks_pieces :=
  repeat (rewrite lacks_append; apply andb_true_intro; split);
  first [ reflexivity
        | eapply free_of_lacks; [eassumption | simpl; tauto] ].

(** ** Parsing a map text *)

(** Undoes the conversions between [int] and [size_t] around a position
    [e] that fits both. *)
Ltac convert e :=
  rewrite ?(to_size_t_nonneg e) by lia;
  rewrite ?(to_int_small e) by lia;
  rewrite ?(to_size_t_nonneg e) by lia.

(** Runs an assertion that holds and is at the head of the goal. *)
Ltac pass_assert :=
  lazymatch goal with
  | |- assert ?b ?msg ≫= _ = _ =>
      rewrite (assert_done b msg) by (apply position_not_npos; lia);
      rewrite bind_done
  end.

(** Runs a [substr] at the head of the goal that cuts the piece [m],
    found after [x]. *)
Ltac pass_substr x m :=
  lazymatch goal with
  | |- string_substr ?s ?pos ?n ≫= _ = _ =>
      erewrite (string_substr_middle s x m _ pos n);
      [ rewrite bind_done
      | unfold map_text; rewrite !append_assoc; reflexivity
      | rewrite ?zlen_append, ?zlen_cons, ?zlen_nil; lia
      | rewrite to_size_t_nonneg by lia; lia ]
  end.

Section map_text.
Variables pre dn d mid rn r w c post : string.
Hypothesis Hpre : free_of "{}:" pre = true.
Hypothesis Hdn : free_of structural dn = true.
Hypothesis Hd : free_of structural d = true.
Hypothesis Hmid : free_of structural mid = true.
Hypothesis Hrn : free_of structural rn = true.
Hypothesis Hr : free_of structural r = true.
Hypothesis Hw : free_of structural w = true.
Hypothesis Hc : free_of "}" c = true.

Let s : string := map_text pre dn d mid rn r w c post.

Lemma zlen_map_text :
  zlen s = zlen pre + 1 + zlen dn + 1 + zlen d + 1 + zlen mid + 2 + zlen rn
           + 1 + zlen r + 1 + zlen w + 1 + zlen c + 1 + zlen post.
Proof.
  unfold s, map_text. rewrite !zlen_append, !zlen_cons, !zlen_nil. lia.
Qed.

Lemma find_open_brace : string_find s "{" 0 = zlen pre.
Proof.
  change 0 with (zlen EmptyString).
  erewrite (string_find_char s "" pre _ "{"); [reflexivity .. | lacks_pieces].
Qed.

Lemma find_close_brace :
  string_find s "}" 0
  = zlen pre + 1 + zlen dn + 1 + zlen d + 1 + zlen mid + 2 + zlen rn
    + 1 + zlen r + 1 + zlen w + 1 + zlen c.
Proof.
  change 0 with (zlen EmptyString).
  erewrite (string_find_char s ""
              (pre +:+ "{" +:+ dn +:+ "[" +:+ d +:+ "]" +:+ mid +:+ "->" +:+
               rn +:+ "[" +:+ r +:+ "]" +:+ w +:+ ":" +:+ c) post "}").
  - rewrite !zlen_append, !zlen_cons, !zlen_nil. lia.
  - unfold s, map_text. rewrite !append_assoc. reflexivity.
  - lacks_pieces.
Qed.

Lemma find_domain_bracket :
  string_find s "[" (zlen pre + 1) = zlen pre + 1 + zlen dn.
Proof.
  replace (zlen pre + 1) with (zlen (pre +:+ "{"))
    by (rewrite zlen_append, zlen_cons, zlen_nil; lia).
  erewrite (string_find_char s (pre +:+ "{") dn _ "[").
  - reflexivity.
  - unfold s, map_text. rewrite !append_assoc. reflexivity.
  - lacks_pieces.
Qed.

Lemma find_domain_end :
  string_find s "]" (zlen pre + 1) = zlen pre + 1 + zlen dn + 1 + zlen d.
Proof.
  replace (zlen pre + 1) with (zlen (pre +:+ "{"))
    by (rewrite zlen_append, zlen_cons, zlen_nil; lia).
  erewrite (string_find_char s (pre +:+ "{") (dn +:+ "[" +:+ d) _ "]").
  - rewrite !zlen_append, !zlen_cons, !zlen_nil. lia.
  - unfold s, map_text. rewrite !append_assoc. reflexivity.
  - lacks_pieces.
Qed.

Lemma find_arrow :
  string_find s "->" (zlen pre + 1 + zlen dn + 1 + zlen d - 1)
  = zlen pre + 1 + zlen dn + 1 + zlen d + 1 + zlen mid.
Proof.
  replace (zlen pre + 1 + zlen dn + 1 + zlen d - 1)
    with (zlen (pre +:+ "{" +:+ dn) + zlen d)
    by (rewrite !zlen_append, !zlen_cons, !zlen_nil; lia).
  erewrite (string_find_arrow s (pre +:+ "{" +:+ dn)
              ("[" +:+ d +:+ "]" +:+ mid)).
  - rewrite !zlen_append, !zlen_cons, !zlen_nil. lia.
  - unfold s, map_text. rewrite !append_assoc. reflexivity.
  - lacks_pieces.
  - pose proof (zlen_nonneg d). pose proof (zlen_nonneg mid).
    rewrite !zlen_append, !zlen_cons, !zlen_nil. lia.
Qed.

Lemma find_range_bracket :
  string_find s "["
    (zlen pre + 1 + zlen dn + 1 + zlen d + 1 + zlen mid + 2)
  = zlen pre + 1 + zlen dn + 1 + zlen d + 1 + zlen mid + 2 + zlen rn.
Proof.
  replace (zlen pre + 1 + zlen dn + 1 + zlen d + 1 + zlen mid + 2)
    with (zlen (pre +:+ "{" +:+ dn +:+ "[" +:+ d +:+ "]" +:+ mid +:+ "->"))
    by (rewrite !zlen_append, !zlen_cons, !zlen_nil; lia).
  erewrite (string_find_char s _ rn _ "[").
  - reflexivity.
  - unfold s, map_text. rewrite !append_assoc. reflexivity.
  - lacks_pieces.
Qed.

Lemma find_range_end :
  string_find s "]"
    (zlen pre + 1 + zlen dn + 1 + zlen d + 1 + zlen mid + 2)
  = zlen pre + 1 + zlen dn + 1 + zlen d + 1 + zlen mid + 2 + zlen rn
    + 1 + zlen r.
Proof.
  replace (zlen pre + 1 + zlen dn + 1 + zlen d + 1 + zlen mid + 2)
    with (zlen (pre +:+ "{" +:+ dn +:+ "[" +:+ d +:+ "]" +:+ mid +:+ "->"))
    by (rewrite !zlen_append, !zlen_cons, !zlen_nil; lia).
  erewrite (string_find_char s _ (rn +:+ "[" +:+ r) _ "]").
  - rewrite !zlen_append, !zlen_cons, !zlen_nil. lia.
  - unfold s, map_text. rewrite !append_assoc. reflexivity.
  - lacks_pieces.
Qed.

Lemma find_colon :
  string_find s ":" 0
  = zlen pre + 1 + zlen dn + 1 + zlen d + 1 + zlen mid + 2 + zlen rn
    + 1 + zlen r + 1 + zlen w.
Proof.
  change 0 with (zlen EmptyString).
  erewrite (string_find_char s ""
              (pre +:+ "{" +:+ dn +:+ "[" +:+ d +:+ "]" +:+ mid +:+ "->" +:+
               rn +:+ "[" +:+ r +:+ "]" +:+ w) _ ":").
  - rewrite !zlen_append, !zlen_cons, !zlen_nil. lia.
  - unfold s, map_text. rewrite !append_assoc. reflexivity.
  - lacks_pieces.
Qed.

Lemma ctor_map_text :
  zlen s + 2 < 2 ^ 31 ->
  parser.map.ctor s =
    Done {| parser.map.parameters := parser.space.empty_space;
            parser.map.domain_name := dn;
            parser.map.range_name := rn;
            parser.map.domain :=
              {| parser.space.constraints := [];
                 parser.space.dimensions := parser.split_string d "," |};
            parser.map.range :=
              {| parser.space.constraints := [];
                 parser.space.dimensions := parser.split_string r "," |};
            parser.map.constraints :=
              {| parser.constraint.constraints :=
                   parser.split_string (parser.trim c) " and " |} |}.
Proof.
  intros Hlen. rewrite zlen_map_text in Hlen.
  pose proof (zlen_nonneg pre). pose proof (zlen_nonneg dn).
  pose proof (zlen_nonneg d). pose proof (zlen_nonneg mid).
  pose proof (zlen_nonneg rn). pose proof (zlen_nonneg r).
  pose proof (zlen_nonneg w). pose proof (zlen_nonneg c).
  pose proof (zlen_nonneg post).
  unfold parser.map.ctor.
  rewrite find_open_brace, find_close_brace.
  convert (zlen pre + 1).
  rewrite find_domain_bracket, find_domain_end.
  convert (zlen pre + 1 + zlen dn + 1 + zlen d + 1 + zlen mid + 2 + zlen rn
           + 1 + zlen r + 1 + zlen w + 1 + zlen c - 1).
  convert (zlen pre + 1 + zlen dn + 1).
  convert (zlen pre + 1 + zlen dn - 1).
  convert (zlen pre + 1 + zlen dn + 1 + zlen d - 1).
  rewrite find_arrow.
  convert (zlen pre + 1 + zlen dn + 1 + zlen d + 1 + zlen mid).
  convert (zlen pre + 1 + zlen dn + 1 + zlen d + 1 + zlen mid + 2).
  rewrite find_range_bracket, find_range_end.
  convert (zlen pre + 1 + zlen dn + 1 + zlen d + 1 + zlen mid + 2 + zlen rn + 1).
  convert (zlen pre + 1 + zlen dn + 1 + zlen d + 1 + zlen mid + 2 + zlen rn - 1).
  convert (zlen pre + 1 + zlen dn + 1 + zlen d + 1 + zlen mid + 2 + zlen rn
           + 1 + zlen r - 1).
  rewrite find_colon.
  convert (zlen pre + 1 + zlen dn + 1 + zlen d + 1 + zlen mid + 2 + zlen rn
           + 1 + zlen r + 1 + zlen w + 1).
  do 4 pass_assert.
  pass_substr (pre +:+ "{") dn.
  pass_substr (pre +:+ "{" +:+ dn +:+ "[") d.
  do 3 pass_assert.
  pass_substr (pre +:+ "{" +:+ dn +:+ "[" +:+ d +:+ "]" +:+ mid +:+ "->") rn.
  pass_substr (pre +:+ "{" +:+ dn +:+ "[" +:+ d +:+ "]" +:+ mid +:+ "->" +:+
               rn +:+ "[") r.
  rewrite position_not_npos by lia.
  erewrite (string_substr_middle s
              (pre +:+ "{" +:+ dn +:+ "[" +:+ d +:+ "]" +:+ mid +:+ "->" +:+
               rn +:+ "[" +:+ r +:+ "]" +:+ w +:+ ":") c).
  - reflexivity.
  - unfold s, map_text. rewrite !append_assoc. reflexivity.
  - rewrite !zlen_append, !zlen_cons, !zlen_nil. lia.
  - rewrite to_size_t_nonneg by lia. lia.
Qed.
End map_text.

(** ** Printing what was parsed, and parsing it again *)

















Example map_text_of_sample :
  map_text "" "S0" "i,j" "" "" "i,j" "" " 0<=i<10 and 0<=j<20" ""
  = "{S0[i,j]->[i,j]: 0<=i<10 and 0<=j<20}"%string.
Proof. reflexivity. Qed.

(** The sample text and what printing its parse gives, twice. *)
Example round_trip_of_sample :
  exists p1 p2,
    parser.map.ctor "{S0[i,j]->[i,j]: 0<=i<10 and 0<=j<20}" = Done p1 /\
    parser.map.get_str p1 = "{S0[i,j] ->[i,j] : 0<=i<10 and 0<=j<20 }"%string /\
    parser.map.ctor (parser.map.get_str p1) = Done p2 /\
    parser.map.get_str p2 = "{S0[i,j] ->[i,j] : 0<=i<10 and 0<=j<20 }"%string.
Proof.
  eexists _, _. split; [vm_compute; reflexivity |].
  split; [vm_compute; reflexivity |].
  split; vm_compute; reflexivity.
Qed.

(** * Further properties *)

(** ** Functions *)

(** X1.  The constructor of [function] stops on an empty name and on
    nothing else; the function it returns has the name and the context it
    was given, no computation and no buffer, and tags nothing:
    [should_parallelize] and [should_vectorize] answer false for every
    computation and level. *)
Theorem fresh_function_untagged (storage_ast : option isl_ast_node)
    (fresh_ctx : isl_ctx) (name : string) :
  (name = ""%string ->
   function.ctor storage_ast fresh_ctx name
     = Abort (assertion_failed "Empty function name")) /\
  (name <> ""%string ->
   exists f,
     function.ctor storage_ast fresh_ctx name = Done f /\
     function.get_name f = name /\
     function.get_ctx f = fresh_ctx /\
     function.get_computations f = [] /\
     function.buffers_list f = ∅ /\
     forall c lev, c <> ""%string -> 0 <= lev ->
       function.should_parallelize f c lev = Done false /\
       function.should_vectorize f c lev = Done false).
Proof.
  split.
  - intros ->. reflexivity.
  - intros Hn. unfold function.ctor.
    rewrite assert_done by (by apply nonempty_iff). rewrite bind_done.
    eexists. split; [reflexivity |]. split_and!; try reflexivity.
    intros c lev Hc Hlev.
    rewrite should_parallelize_returns, should_vectorize_returns by done.
    cbn [function.parallel_dimensions function.vector_dimensions].
    rewrite !lookup_empty. done.
Qed.

(** X2.  [should_parallelize] and [should_vectorize] stop on an empty
    computation name, and, the name being non-empty, on a negative
    level; the name is checked first and the tags play no part. *)
Theorem should_parallelize_vectorize_aborts (F : function.t) (c : string)
    (lev : Z) :
  (c = ""%string ->
   function.should_parallelize F c lev
     = Abort (assertion_failed "comp.length() > 0") /\
   function.should_vectorize F c lev
     = Abort (assertion_failed "comp.length() > 0")) /\
  (c <> ""%string -> lev < 0 ->
   function.should_parallelize F c lev = Abort (assertion_failed "lev >= 0") /\
   function.should_vectorize F c lev = Abort (assertion_failed "lev >= 0")).
Proof.
  split.
  - intros ->. split; reflexivity.
  - intros Hc Hlev.
    unfold function.should_parallelize, function.should_vectorize.
    rewrite !(assert_done (nonempty c)) by (by apply nonempty_iff).
    rewrite !bind_done.
    replace (0 <=? lev) with false by (symmetry; apply Z.leb_gt; lia).
    split; reflexivity.
Qed.

(** X3.  [get_halide_stmt] has no assertion: on a function as its
    constructor leaves it, [halide_stmt] is null and the call
    dereferences it, whatever statements exist. *)
Theorem get_halide_stmt_of_fresh_function (storage_ast : option isl_ast_node)
    (fresh_ctx : isl_ctx) (name : string) (f : function.t)
    (stmts : gmap loc Halide.Stmt) :
  function.ctor storage_ast fresh_ctx name = Done f ->
  function.get_halide_stmt f stmts
    = Abort (undefined_behaviour "null pointer dereferenced").
Proof.
  unfold function.ctor. intros H. split_run H. injection H as <-.
  reflexivity.
Qed.

Lemma get_halide_stmt_of_fresh_function_witness :
  function.ctor None 1%positive "f" = Done empty_function /\
  function.get_halide_stmt empty_function ∅
    = Abort (undefined_behaviour "null pointer dereferenced").
Proof.
  split; [reflexivity |].
  apply (get_halide_stmt_of_fresh_function None 1%positive "f" empty_function ∅).
  reflexivity.
Defined.

(** ** Buffers and the store *)

Lemma buffer_ctor_inv name nb_dims dim_sizes type data is_argument argt fct
    (fs : gmap loc function.t) b fs' :
  buffer.ctor name nb_dims dim_sizes type data is_argument argt fct fs
    = Done (b, fs') ->
  exists l f,
    fct = Some l /\ fs !! l = Some f /\
    name <> ""%string /\ 0 < nb_dims /\
    to_size_t nb_dims = Z.of_nat (length dim_sizes) /\
    b = {| buffer.name := name; buffer.nb_dims := nb_dims;
           buffer.dim_sizes := dim_sizes; buffer.type := type;
           buffer.data := data; buffer.fct := fct;
           buffer.is_arg := is_argument;
           buffer.argtype := if is_argument then argt else argument.internal |} /\
    fs' = <[l := function.set_buffers_list f
                    (std_map_insert name
                       (Halide.mkBuffer type dim_sizes data name)
                       (function.buffers_list f))]> fs.
Proof.
  unfold buffer.ctor. intros H. split_run H.
  apply nonempty_iff in Hassert. apply Z.ltb_lt in Hassert0.
  apply Z.eqb_eq in Hassert1.
  destruct fct as [l|]; [|done]. cbn in Hrun.
  destruct (fs !! l) as [f|] eqn:Hf; [|done]. injection Hrun as <-.
  injection H as <- <-. exists l, f. split_and!; done.
Qed.

(** X4.  A buffer constructed under a name that its function does not
    know yet is registered there: [buffers_list] maps the name to a
    [Halide::Buffer] of the type, the sizes, the data and the name given,
    and the other entries are as before. *)
Theorem buffer_ctor_registers name nb_dims dim_sizes type data is_argument argt
    (l : loc) (f : function.t) (fs : gmap loc function.t) b fs' :
  buffer.ctor name nb_dims dim_sizes type data is_argument argt (Some l) fs
    = Done (b, fs') ->
  fs !! l = Some f ->
  function.buffers_list f !! name = None ->
  exists f',
    fs' !! l = Some f' /\
    function.buffers_list f' !! name
      = Some (Halide.mkBuffer type dim_sizes data name) /\
    forall k, k <> name ->
      function.buffers_list f' !! k = function.buffers_list f !! k.
Proof.
  intros H Hf Hfree.
  apply buffer_ctor_inv in H
    as (l' & f0 & [= <-] & Hf0 & _ & _ & _ & _ & ->).
  rewrite Hf in Hf0. injection Hf0 as <-.
  eexists. split; [apply lookup_insert_eq |].
  cbn [function.buffers_list function.set_buffers_list].
  unfold std_map_insert. rewrite Hfree. split.
  - apply lookup_insert_eq.
  - intros k Hk. by rewrite lookup_insert_ne.
Qed.

Lemma buffer_ctor_registers_witness :
  exists b fs',
    (buffer.ctor "b0" 2 [10; 20] (Halide.UInt 8) None true argument.output
       (Some 1%positive) one_function = Done (b, fs') /\
     one_function !! 1%positive = Some empty_function /\
     function.buffers_list empty_function !! "b0"%string = None) /\
    exists f',
      fs' !! 1%positive = Some f' /\
      function.buffers_list f' !! "b0"%string
        = Some (Halide.mkBuffer (Halide.UInt 8) [10; 20] None "b0") /\
      forall k, k <> "b0"%string ->
        function.buffers_list f' !! k = function.buffers_list empty_function !! k.
Proof.
  eexists _, _. split.
  - split_and!; [vm_compute; reflexivity | reflexivity | reflexivity].
  - refine (buffer_ctor_registers "b0" 2 [10; 20] (Halide.UInt 8) None true
              argument.output 1%positive empty_function one_function _ _ _ _ _);
      [vm_compute; reflexivity | reflexivity | reflexivity].
Defined.

Lemma set_buffers_list_same (f : function.t) :
  function.set_buffers_list f (function.buffers_list f) = f.
Proof. by destruct f. Qed.

(** X5.  A buffer constructed under a name that its function already
    knows leaves the store of functions as it was: [std::map::insert]
    keeps the [Halide::Buffer] registered first. *)
Theorem buffer_ctor_keeps_registered name nb_dims dim_sizes type data
    is_argument argt (l : loc) (f : function.t) (fs : gmap loc function.t)
    b fs' (registered : Halide.Buffer) :
  buffer.ctor name nb_dims dim_sizes type data is_argument argt (Some l) fs
    = Done (b, fs') ->
  fs !! l = Some f ->
  function.buffers_list f !! name = Some registered ->
  fs' = fs.
Proof.
  intros H Hf Hreg.
  apply buffer_ctor_inv in H
    as (l' & f0 & [= <-] & Hf0 & _ & _ & _ & _ & ->).
  rewrite Hf in Hf0. injection Hf0 as <-.
  unfold std_map_insert. rewrite Hreg, set_buffers_list_same.
  by apply insert_id.
Qed.

Lemma buffer_ctor_keeps_registered_witness :
  exists b fs',
    (buffer.ctor "b0" 1 [5] (Halide.Int 32) None false argument.input
       (Some 1%positive) two_functions = Done (b, fs') /\
     two_functions !! 1%positive = Some function_with_b0 /\
     function.buffers_list function_with_b0 !! "b0"%string
       = Some (Halide.mkBuffer (Halide.UInt 8) [10; 20] None "b0")) /\
    fs' = two_functions.
Proof.
  eexists _, _. split.
  - split_and!; [vm_compute; reflexivity | reflexivity | reflexivity].
  - refine (buffer_ctor_keeps_registered "b0" 1 [5] (Halide.Int 32) None false
              argument.input 1%positive function_with_b0 two_functions _ _
              (Halide.mkBuffer (Halide.UInt 8) [10; 20] None "b0") _ _ _);
      [vm_compute; reflexivity | reflexivity | reflexivity].
Defined.

(** X6.  Constructing a buffer touches nothing but the [buffers_list]
    of its function: the other functions of the store stay as they are,
    and so do the name, the context, the AST, the tags, the body and the
    statement of its own function. *)
Theorem buffer_ctor_frame name nb_dims dim_sizes type data is_argument argt
    (l : loc) (fs : gmap loc function.t) b fs' :
  buffer.ctor name nb_dims dim_sizes type data is_argument argt (Some l) fs
    = Done (b, fs') ->
  (forall l', l' <> l -> fs' !! l' = fs !! l') /\
  exists f f',
    fs !! l = Some f /\ fs' !! l = Some f' /\
    function.name f' = function.name f /\
    function.ctx f' = function.ctx f /\
    function.ast f' = function.ast f /\
    function.parallel_dimensions f' = function.parallel_dimensions f /\
    function.vector_dimensions f' = function.vector_dimensions f /\
    function.body f' = function.body f /\
    function.halide_stmt f' = function.halide_stmt f /\
    function.arguments f' = function.arguments f /\
    function.invariants f' = function.invariants f.
Proof.
  intros H.
  apply buffer_ctor_inv in H
    as (l' & f0 & [= <-] & Hf0 & _ & _ & _ & _ & ->).
  split.
  - intros l' Hl'. by rewrite lookup_insert_ne.
  - eexists f0, _. split; [done |]. split; [apply lookup_insert_eq |].
    split_and!; reflexivity.
Qed.

Lemma buffer_ctor_frame_witness :
  exists b fs',
    buffer.ctor "b1" 1 [5] (Halide.Int 32) None false argument.input
      (Some 1%positive) two_functions = Done (b, fs') /\
    (forall l', l' <> 1%positive -> fs' !! l' = two_functions !! l') /\
    exists f f',
      two_functions !! 1%positive = Some f /\ fs' !! 1%positive = Some f' /\
      function.name f' = function.name f /\
      function.ctx f' = function.ctx f /\
      function.ast f' = function.ast f /\
      function.parallel_dimensions f' = function.parallel_dimensions f /\
      function.vector_dimensions f' = function.vector_dimensions f /\
      function.body f' = function.body f /\
      function.halide_stmt f' = function.halide_stmt f /\
      function.arguments f' = function.arguments f /\
      function.invariants f' = function.invariants f.
Proof.
  eexists _, _. split; [vm_compute; reflexivity |].
  refine (buffer_ctor_frame "b1" 1 [5] (Halide.Int 32) None false
            argument.input 1%positive two_functions _ _ _).
  vm_compute. reflexivity.
Defined.

(** X7.  A constructed buffer answers with what it was given: its name,
    which is not empty, its type, and a number of dimensions that is
    positive and is the length of its vector of sizes. *)
Theorem buffer_ctor_getters name nb_dims dim_sizes type data is_argument argt
    fct (fs : gmap loc function.t) b fs' :
  - 2 ^ 31 <= nb_dims < 2 ^ 31 ->
  buffer.ctor name nb_dims dim_sizes type data is_argument argt fct fs
    = Done (b, fs') ->
  buffer.get_name b = name /\ buffer.get_name b <> ""%string /\
  buffer.get_type b = type /\
  buffer.dim_sizes b = dim_sizes /\
  buffer.get_n_dims b = Z.of_nat (length (buffer.dim_sizes b)) /\
  0 < buffer.get_n_dims b.
Proof.
  intros Hint H.
  apply buffer_ctor_inv in H as (l & f & _ & _ & Hn & Hpos & Hlen & -> & _).
  rewrite to_size_t_small in Hlen by lia.
  unfold buffer.get_name, buffer.get_type, buffer.get_n_dims. cbn.
  split_and!; done.
Qed.

Lemma buffer_ctor_getters_witness :
  exists b fs',
    (- 2 ^ 31 <= 2 < 2 ^ 31 /\
     buffer.ctor "b0" 2 [10; 20] (Halide.UInt 8) None true argument.output
       (Some 1%positive) one_function = Done (b, fs')) /\
    buffer.get_name b = "b0"%string /\ buffer.get_name b <> ""%string /\
    buffer.get_type b = Halide.UInt 8 /\
    buffer.dim_sizes b = [10; 20] /\
    buffer.get_n_dims b = Z.of_nat (length (buffer.dim_sizes b)) /\
    0 < buffer.get_n_dims b.
Proof.
  eexists _, _. split.
  - split; [lia | vm_compute; reflexivity].
  - refine (buffer_ctor_getters "b0" 2 [10; 20] (Halide.UInt 8) None true
              argument.output (Some 1%positive) one_function _ _ _ _);
      [lia | vm_compute; reflexivity].
Defined.

(** ** Computations: errors, frames and compositions *)

Lemma set_time_processor_domain_twice (c : computation.t) (v w : option isl_set) :
  computation.set_time_processor_domain
    (computation.set_time_processor_domain c v) w
  = computation.set_time_processor_domain c w.
Proof. reflexivity. Qed.

Lemma gen_time_processor_domain_inv (c c' : computation.t) :
  computation.gen_time_processor_domain c = Done c' ->
  exists d m,
    computation.iteration_domain c = Some d /\
    computation.schedule c = Some m /\
    c' = computation.set_time_processor_domain c
           (isl_set_apply (Some d) (Some m)).
Proof.
  unfold computation.gen_time_processor_domain. intros H. split_run H.
  apply get_iteration_domain_inv in Hrun as (d & -> & Hd).
  apply get_iteration_domain_inv in Hrun0 as (d' & -> & Hd').
  rewrite Hd in Hd'. injection Hd' as <-.
  apply bool_decide_eq_true in Hassert0.
  unfold computation.get_schedule in *.
  destruct (computation.schedule c) as [m|] eqn:Hm; [|done].
  injection H as <-. exists d, m. split_and!; done.
Qed.

(** X8.  [gen_time_processor_domain] stops on a null iteration domain
    and, the domain being there, on a null schedule, each time on the
    assertion that names the pointer; otherwise it returns. *)
Theorem gen_time_processor_domain_returns_iff (c : computation.t) :
  (computation.iteration_domain c = None ->
   computation.gen_time_processor_domain c
     = Abort (assertion_failed "iteration_domain != NULL")) /\
  (computation.iteration_domain c <> None ->
   computation.schedule c = None ->
   computation.gen_time_processor_domain c
     = Abort (assertion_failed "this->get_schedule() != NULL")) /\
  ((exists c', computation.gen_time_processor_domain c = Done c') <->
   computation.iteration_domain c <> None /\ computation.schedule c <> None).
Proof.
  split_and!.
  - intros Hd. unfold computation.gen_time_processor_domain,
      computation.get_iteration_domain. rewrite Hd. reflexivity.
  - intros Hd Hm. destruct (computation.iteration_domain c) as [d|] eqn:E;
      [|done].
    unfold computation.gen_time_processor_domain.
    rewrite (get_iteration_domain_some c d E). rewrite !bind_done.
    unfold computation.get_schedule. rewrite Hm. reflexivity.
  - split.
    + intros (c' & H). apply gen_time_processor_domain_inv in H
        as (d & m & Hd & Hm & _). rewrite Hd, Hm. done.
    + intros (Hd & Hm).
      destruct (computation.iteration_domain c) as [d|] eqn:Ed; [|done].
      destruct (computation.schedule c) as [m|] eqn:Em; [|done].
      unfold computation.gen_time_processor_domain.
      rewrite (get_iteration_domain_some c d Ed). rewrite !bind_done.
      unfold computation.get_schedule. rewrite Em.
      rewrite !(assert_done (bool_decide _)) by (by apply bool_decide_eq_true_2).
      rewrite !bind_done. eauto.
Qed.

(** X9.  [gen_time_processor_domain] is idempotent: run on its own
    result it returns that result. *)
Theorem gen_time_processor_domain_idempotent (c c' : computation.t) :
  computation.gen_time_processor_domain c = Done c' ->
  computation.gen_time_processor_domain c' = Done c'.
Proof.
  intros H. apply gen_time_processor_domain_inv in H as (d & m & Hd & Hm & ->).
  unfold computation.gen_time_processor_domain.
  erewrite get_iteration_domain_some by exact Hd. rewrite !bind_done.
  unfold computation.get_schedule.
  cbn [computation.schedule computation.set_time_processor_domain].
  rewrite Hm.
  rewrite !(assert_done (bool_decide _)) by (by apply bool_decide_eq_true_2).
  rewrite !bind_done. unfold isl_set_copy, isl_map_copy.
  by rewrite set_time_processor_domain_twice.
Qed.

Lemma gen_time_processor_domain_idempotent_witness :
  exists c',
    computation.gen_time_processor_domain S0_computation = Done c' /\
    computation.gen_time_processor_domain c' = Done c'.
Proof.
  eexists. split; [reflexivity |].
  apply (gen_time_processor_domain_idempotent S0_computation). reflexivity.
Defined.

(** X10.  [gen_time_processor_domain] does not look at what
    [isl_set_apply] gives back: with a schedule whose domain tuple is not
    the tuple of the iteration domain the call returns, and the
    time-processor domain is null. *)
Theorem gen_time_processor_domain_unchecked (c : computation.t) (d : isl_set)
    (m : isl_map) :
  computation.iteration_domain c = Some d ->
  computation.schedule c = Some m ->
  tuple_is_equal (set_tuple d) (map_in m) = false ->
  exists c',
    computation.gen_time_processor_domain c = Done c' /\
    computation.time_processor_domain c' = None.
Proof.
  intros Hd Hm Ht. unfold computation.gen_time_processor_domain.
  rewrite (get_iteration_domain_some c d Hd). rewrite !bind_done.
  unfold computation.get_schedule. rewrite Hm.
  rewrite !(assert_done (bool_decide _)) by (by apply bool_decide_eq_true_2).
  rewrite !bind_done. eexists. split; [reflexivity |].
  cbn [computation.time_processor_domain computation.set_time_processor_domain].
  unfold isl_set_copy, isl_map_copy, isl_set_apply.
  by rewrite Ht.
Qed.

(** X11.  [set_identity_schedule] stops on a null iteration domain only.
    Otherwise it installs a schedule that relates every point of the
    iteration domain to itself and to nothing else, whatever schedule was
    there before; running it again changes nothing. *)
Theorem set_identity_schedule_resets (c : computation.t) :
  (computation.iteration_domain c = None ->
   computation.set_identity_schedule c
     = Abort (assertion_failed "iteration_domain != NULL")) /\
  (forall d, computation.iteration_domain c = Some d ->
   exists c' sched,
     computation.set_identity_schedule c = Done c' /\
     (forall m, computation.set_identity_schedule (computation.set_schedule c m)
                = Done c') /\
     computation.set_identity_schedule c' = Done c' /\
     computation.schedule c' = Some sched /\
     map_in sched = set_tuple d /\
     tuple_name (map_out sched) = Some ""%string /\
     forall env x y, map_contains sched env x y <-> set_contains d env x /\ y = x).
Proof.
  split.
  - intros Hd. unfold computation.set_identity_schedule,
      computation.get_iteration_domain. rewrite Hd. reflexivity.
  - intros d Hd. eexists _, (identity_on d "").
    split; [by apply set_identity_schedule_some |].
    split_and!; try reflexivity.
    + intros m. by rewrite (set_identity_schedule_some _ d).
    + by rewrite (set_identity_schedule_some _ d).
    + intros env x y. unfold map_contains, set_contains; cbn. split.
      * intros (Hx & Hy & -> & _ & Hd'). done.
      * intros ((Hx & Hd') & ->). done.
Qed.

Lemma gen_time_processor_domain_unchecked_witness :
  (computation.iteration_domain
     (computation.set_schedule S0_computation (Some (identity_on S1_domain "")))
     = Some S0_domain /\
   computation.schedule
     (computation.set_schedule S0_computation (Some (identity_on S1_domain "")))
     = Some (identity_on S1_domain "") /\
   tuple_is_equal (set_tuple S0_domain) (map_in (identity_on S1_domain ""))
     = false) /\
  exists c',
    computation.gen_time_processor_domain
      (computation.set_schedule S0_computation (Some (identity_on S1_domain "")))
      = Done c' /\
    computation.time_processor_domain c' = None.
Proof.
  split; [split_and!; reflexivity |].
  apply (gen_time_processor_domain_unchecked
           (computation.set_schedule S0_computation
              (Some (identity_on S1_domain "")))
           S0_domain (identity_on S1_domain "")); reflexivity.
Defined.

Section more_computations.
Context `{isl_text}.

(** X12.  The constructor of [computation] returns exactly when the
    parent pointer points to a function, the string is not empty, isl
    reads it as a set and the tuple of that set has a name.  A null
    parent and an empty string stop it on an assertion; a string that
    isl does not read, or reads as a set without a tuple name, makes it
    build a [std::string] from a null pointer. *)
Theorem computation_ctor_returns_iff (this : loc) (str : string)
    (expr : Halide.Expr) (fct : option loc) (fs : gmap loc function.t) :
  ((exists c fs', computation.ctor this str expr fct fs = Done (c, fs')) <->
   exists l f d n,
     fct = Some l /\ fs !! l = Some f /\ str <> ""%string /\
     isl_set_read_from_str (function.ctx f) str = Some d /\
     tuple_name (set_tuple d) = Some n) /\
  (fct = None ->
   computation.ctor this str expr fct fs
     = Abort (assertion_failed "fct != NULL")) /\
  (fct <> None -> str = ""%string ->
   computation.ctor this str expr fct fs
     = Abort (assertion_failed "Empty iteration space")) /\
  (forall l f, fct = Some l -> fs !! l = Some f -> str <> ""%string ->
   isl_space_get_tuple_name
     (isl_set_get_space (isl_set_read_from_str (function.ctx f) str))
     isl_dim_set = None ->
   computation.ctor this str expr fct fs
     = Abort (undefined_behaviour "std::string built from a null pointer")).
Proof.
  split_and!.
  - split.
    + intros (c & fs' & Hrun). apply ctor_inv in Hrun as (c0 & Hinit & _).
      apply init_computation_inv in Hinit
        as (l & f & d & n & ? & ? & ? & ? & ? & _).
      exists l, f, d, n. done.
    + intros (l & f & d & n & -> & Hf & Hstr & Hd & Hn).
      destruct (init_computation_returns this None str l f d n fs Hf Hstr Hd Hn)
        as (c0 & fs' & Hinit).
      unfold computation.ctor. rewrite Hinit. cbn. eauto.
  - intros ->. reflexivity.
  - intros Hfct ->. unfold computation.ctor, computation.init_computation.
    rewrite (assert_done (bool_decide _)) by (by apply bool_decide_eq_true_2).
    reflexivity.
  - intros l f -> Hf Hstr Hname.
    unfold computation.ctor, computation.init_computation.
    rewrite (assert_done (bool_decide _)) by (by apply bool_decide_eq_true_2).
    rewrite bind_done.
    rewrite (assert_done (nonempty str)) by (by apply nonempty_iff).
    rewrite bind_done. cbn [deref]. rewrite Hf, bind_done.
    unfold function.get_ctx. rewrite Hname. reflexivity.
Qed.

(** X13.  A constructed computation points back to the function it was
    given and shares its isl context; it carries the expression it was
    given; the constructor leaves the other functions of the store as
    they are. *)
Theorem computation_ctor_frame (this : loc) (str : string) (expr : Halide.Expr)
    (fct : option loc) (fs : gmap loc function.t) c fs' :
  computation.ctor this str expr fct fs = Done (c, fs') ->
  computation.get_function c = fct /\
  computation.expression c = expr /\
  (exists l f, fct = Some l /\ fs !! l = Some f /\
               computation.get_ctx c = function.get_ctx f) /\
  (forall l', Some l' <> fct -> fs' !! l' = fs !! l').
Proof.
  intros Hrun. apply ctor_inv in Hrun as (c0 & Hinit & ->).
  apply init_computation_inv in Hinit
    as (l & f & d & n & -> & Hf & _ & _ & _ & -> & ->).
  split_and!; try reflexivity.
  - exists l, f. done.
  - intros l' Hl'. rewrite lookup_insert_ne; [done | congruence].
Qed.

(** X14.  On a computation as its constructor leaves it,
    [gen_time_processor_domain] returns, and the time-processor domain
    is the iteration domain under the tuple name [""]. *)
Theorem ctor_then_gen_time_processor_domain (this : loc) (str : string)
    (expr : Halide.Expr) (fct : option loc) (fs : gmap loc function.t) c fs' :
  computation.ctor this str expr fct fs = Done (c, fs') ->
  exists c' d t,
    computation.gen_time_processor_domain c = Done c' /\
    computation.iteration_domain c = Some d /\
    computation.time_processor_domain c' = Some t /\
    set_equal t (renamed d "").
Proof.
  intros Hrun. apply ctor_inv in Hrun as (c0 & Hinit & ->).
  apply init_computation_inv in Hinit
    as (l & f & d & n & _ & _ & _ & _ & _ & _ & ->).
  destruct (apply_identity_on d "") as (t & Ht & Heq).
  eexists _, d, t. split; [reflexivity |]. split; [reflexivity |].
  split; [exact Ht | exact Heq].
Qed.

Lemma bind_to_inv (c : computation.t) (buff : option buffer.t)
    (c' : computation.t) :
  computation.bind_to c buff = Done c' ->
  exists b d,
    buff = Some b /\ computation.iteration_domain c = Some d /\
    name_ok (buffer.name b) = true /\
    isl_printer_print_map (identity_on d (buffer.name b)) <> ""%string /\
    c' = {| computation.ctx := computation.ctx c;
            computation.time_processor_domain :=
              computation.time_processor_domain c;
            computation.iteration_domain := computation.iteration_domain c;
            computation.schedule := computation.schedule c;
            computation.function := computation.function c;
            computation.name := computation.name c;
            computation.expression := computation.expression c;
            computation.stmt := computation.stmt c;
            computation.access :=
              isl_map_read_from_str (computation.ctx c)
                (isl_printer_print_map (identity_on d (buffer.name b)));
            computation.index_expr := computation.index_expr c |}.
Proof.
  unfold computation.bind_to. intros Hrun. split_run Hrun.
  apply get_iteration_domain_inv in Hrun0 as (d & -> & Hd).
  apply get_iteration_domain_inv in Hrun1 as (d1 & -> & Hd1).
  rewrite Hd in Hd1. injection Hd1 as <-.
  destruct buff as [b|]; [|done]. injection Hrun2 as <-.
  unfold buffer.get_name in *.
  destruct (name_ok (buffer.name b)) eqn:Hn.
  2: { rewrite identity_map_refused in Hrun3 by done. discriminate Hrun3. }
  rewrite identity_map_built in Hrun3 by done. injection Hrun3 as <-.
  unfold computation.set_access in Hrun. split_run Hrun.
  apply nonempty_iff in Hassert0. injection Hrun as <-.
  exists b, d. split_and!; done.
Qed.

(** X15.  [bind_to] returns exactly when the buffer pointer is not null,
    the computation has an iteration domain, isl takes the name of the
    buffer as a tuple name and prints a non-empty text for the map.  A
    null buffer and a null iteration domain stop it on an assertion; a
    buffer name that isl refuses (one that reads as a number) makes it
    build a [std::string] from a null pointer. *)
Theorem bind_to_returns_iff (c : computation.t) (buff : option buffer.t) :
  ((exists c', computation.bind_to c buff = Done c') <->
   exists b d,
     buff = Some b /\ computation.iteration_domain c = Some d /\
     name_ok (buffer.name b) = true /\
     isl_printer_print_map (identity_on d (buffer.name b)) <> ""%string) /\
  (buff = None ->
   computation.bind_to c buff = Abort (assertion_failed "buff != NULL")) /\
  (buff <> None -> computation.iteration_domain c = None ->
   computation.bind_to c buff
     = Abort (assertion_failed "iteration_domain != NULL")) /\
  (forall b, buff = Some b -> computation.iteration_domain c <> None ->
   name_ok (buffer.name b) = false ->
   computation.bind_to c buff
     = Abort (undefined_behaviour "std::string built from a null pointer")).
Proof.
  split_and!.
  - split.
    + intros (c' & Hrun). apply bind_to_inv in Hrun
        as (b & d & ? & ? & ? & ? & _). exists b, d. done.
    + intros (b & d & -> & Hd & Hn & Hp). by apply (bind_to_returns c b d).
  - intros ->. reflexivity.
  - intros Hb Hd. unfold computation.bind_to.
    rewrite (assert_done (bool_decide _)) by (by apply bool_decide_eq_true_2).
    rewrite bind_done. unfold computation.get_iteration_domain.
    rewrite Hd. reflexivity.
  - intros b -> Hd Hn.
    destruct (computation.iteration_domain c) as [d|] eqn:Ed; [|done].
    unfold computation.bind_to.
    rewrite (assert_done (bool_decide _)) by (by apply bool_decide_eq_true_2).
    rewrite (get_iteration_domain_some c d Ed). rewrite !bind_done.
    rewrite identity_map_refused by done. reflexivity.
Qed.

(** X16.  The last binding wins: once [bind_to] has returned, binding
    the result to a buffer gives what binding the original computation
    to that buffer gives. *)
Theorem bind_to_last_wins (c c1 : computation.t) (b1 : buffer.t)
    (buff : option buffer.t) :
  computation.bind_to c (Some b1) = Done c1 ->
  computation.bind_to c1 buff = computation.bind_to c buff.
Proof.
  intros Hrun. apply bind_to_inv in Hrun as (b & d & _ & _ & _ & _ & ->).
  reflexivity.
Qed.

End more_computations.

Lemma computation_ctor_frame_witness :
  computation.ctor 5%positive S0_text None (Some 1%positive) one_function
    = Done (S0_computation,
            <[1%positive := function.add_computation empty_function 5%positive]>
              one_function) /\
  computation.get_function S0_computation = Some 1%positive /\
  computation.expression S0_computation = None /\
  (exists l f, Some 1%positive = Some l /\ one_function !! l = Some f /\
               computation.get_ctx S0_computation = function.get_ctx f) /\
  (forall l', Some l' <> Some 1%positive ->
     <[1%positive := function.add_computation empty_function 5%positive]>
       one_function !! l' = one_function !! l').
Proof.
  split; [exact S0_ctor_run |].
  exact (computation_ctor_frame 5%positive S0_text None (Some 1%positive)
           one_function _ _ S0_ctor_run).
Defined.

Lemma ctor_then_gen_time_processor_domain_witness :
  computation.ctor 5%positive S0_text None (Some 1%positive) one_function
    = Done (S0_computation,
            <[1%positive := function.add_computation empty_function 5%positive]>
              one_function) /\
  exists c' d t,
    computation.gen_time_processor_domain S0_computation = Done c' /\
    computation.iteration_domain S0_computation = Some d /\
    computation.time_processor_domain c' = Some t /\
    set_equal t (renamed d "").
Proof.
  split; [exact S0_ctor_run |].
  exact (ctor_then_gen_time_processor_domain 5%positive S0_text None
           (Some 1%positive) one_function _ _ S0_ctor_run).
Defined.

Lemma bind_to_last_wins_witness :
  computation.bind_to S0_computation (Some b0)
    = Done (computation.mk 1%positive None (Some S0_domain)
              (Some (identity_on S0_domain "")) (Some 1%positive) "S0" None None
              (Some (identity_on S0_domain "b0")) None) /\
  computation.bind_to
    (computation.mk 1%positive None (Some S0_domain)
       (Some (identity_on S0_domain "")) (Some 1%positive) "S0" None None
       (Some (identity_on S0_domain "b0")) None) (Some b0)
  = computation.bind_to S0_computation (Some b0).
Proof.
  split; [exact S0_bind_to_run |].
  exact (bind_to_last_wins S0_computation _ b0 (Some b0) S0_bind_to_run).
Defined.

(** ** What the constructor of [parser::map] checks *)

Lemma length_string_drop (n : nat) (s : string) :
  String.length (string_drop n s) = (String.length s - n)%nat.
Proof.
  revert s. induction n as [|n IH]; intros s; simpl.
  - destruct s; simpl; lia.
  - destruct s as [|x s]; simpl; [reflexivity | apply IH].
Qed.

Lemma find_from_bounds (pat s : string) (i r : nat) :
  find_from pat s i = Some r -> (i <= r <= i + String.length s)%nat.
Proof.
  revert i. induction s as [|x s IH]; intros i; cbn [find_from].
  - destruct (starts_with pat EmptyString); [|discriminate].
    intros [= <-]. simpl. lia.
  - destruct (starts_with pat (String x s)).
    + intros [= <-]. simpl. lia.
    + intros Hf. apply IH in Hf. simpl. lia.
Qed.

(** [find] gives [npos] or a position between the start and the end. *)
Lemma string_find_range (s pat : string) (pos : Z) :
  0 <= pos ->
  string_find s pat pos = npos \/
  pos <= string_find s pat pos <= zlen s.
Proof.
  intros Hpos. unfold string_find, zlen.
  destruct (Z.leb_spec pos (Z.of_nat (String.length s))) as [Hle|]; [|by left].
  destruct (find_from pat _ _) as [r|] eqn:Hf; [|by left].
  right. apply find_from_bounds in Hf. rewrite length_string_drop in Hf. lia.
Qed.

(** One more than what [find] gives is never [npos], in [int] or in
    [size_t]. *)
Lemma find_plus_one_not_npos (s pat : string) (pos : Z) :
  0 <= pos -> zlen s + 2 < 2 ^ 31 ->
  negb (to_size_t (to_int (to_size_t (string_find s pat pos + 1))) =? npos)
  = true.
Proof.
  intros Hpos Hlen. pose proof (zlen_nonneg s).
  destruct (string_find_range s pat pos Hpos) as [-> | Hr].
  - reflexivity.
  - rewrite (to_size_t_nonneg (string_find s pat pos + 1)) by lia.
    rewrite to_int_small by lia.
    rewrite to_size_t_nonneg by lia. apply position_not_npos. lia.
Qed.

Lemma to_size_t_range (n : Z) : 0 <= to_size_t n.
Proof. unfold to_size_t. apply Z.mod_pos_bound. lia. Qed.

Lemma assert_false_bind {B : Type} (msg : string) (k : unit -> outcome B) :
  assert false msg ≫= k = Abort (assertion_failed msg).
Proof. reflexivity. Qed.

Lemma string_substr_cases (s : string) (pos n : Z) :
  (exists x, string_substr s pos n = Done x) \/
  string_substr s pos n = Abort (exception "std::out_of_range").
Proof.
  unfold string_substr. destruct (_ <? _); [by right | left; eauto].
Qed.

(** Walks through the constructor towards a goal that says which
    outcome it does not have: an assertion is passed when [pass] proves
    it, split in two otherwise. *)
Ltac walk pass :=
  repeat lazymatch goal with
  | |- assert ?b ?msg ≫= _ <> _ =>
      first
        [ rewrite (assert_done b msg) by pass; rewrite bind_done
        | destruct b;
          [ rewrite (assert_done true msg eq_refl), bind_done
          | rewrite assert_false_bind; discriminate ] ]
  | |- string_substr ?s ?pos ?n ≫= _ <> _ =>
      let x := fresh "x" in let E := fresh "E" in
      destruct (string_substr_cases s pos n) as [[x E] | E]; rewrite E;
      [ rewrite bind_done | discriminate ]
  | |- (if ?c then _ else _) ≫= _ <> _ => destruct c
  | |- (string_substr ?s ?pos ?n ≫= _) ≫= _ <> _ =>
      let x := fresh "x" in let E := fresh "E" in
      destruct (string_substr_cases s pos n) as [[x E] | E]; rewrite E;
      [ rewrite bind_done | discriminate ]
  | |- Done _ ≫= _ <> _ => rewrite bind_done
  | |- Done _ <> _ => discriminate
  end.

(** X17.  Three assertions of the constructor of [parser::map] cannot
    fail: [find] plus one is compared with [npos], and [npos] plus one is
    zero.  On no text does the constructor stop on "map_begin",
    "domain_space_begin" or "range_space_begin". *)
Theorem map_ctor_vacuous_assertions (map_str : string) :
  zlen map_str + 2 < 2 ^ 31 ->
  parser.map.ctor map_str
    <> Abort (assertion_failed "map_begin != std::string::npos") /\
  parser.map.ctor map_str
    <> Abort (assertion_failed "domain_space_begin != std::string::npos") /\
  parser.map.ctor map_str
    <> Abort (assertion_failed "range_space_begin != std::string::npos").
Proof.
  intros Hlen. unfold parser.map.ctor.
  split_and!;
    walk ltac:(apply find_plus_one_not_npos;
               [first [lia | apply to_size_t_range] | exact Hlen]).
Qed.

Lemma find_from_zero (pat s : string) :
  find_from pat s 0 = Some 0%nat -> starts_with pat s = true.
Proof.
  destruct s as [|x s]; cbn [find_from].
  - destruct (starts_with pat EmptyString); [done | discriminate].
  - destruct (starts_with pat (String x s)); [done |].
    intros Hf. apply find_from_bounds in Hf. lia.
Qed.

Lemma string_find_zero (s pat : string) :
  string_find s pat 0 = 0 -> exists s', s = pat +:+ s'.
Proof.
  unfold string_find. pose proof (Nat2Z.is_nonneg (String.length s)).
  destruct (Z.leb_spec 0 (Z.of_nat (String.length s))); [|lia].
  change (Z.to_nat 0) with 0%nat.
  replace (string_drop 0 s) with s by (by destruct s).
  destruct (find_from pat s 0) as [r|] eqn:Hf; [|discriminate].
  intros Hr. assert (r = 0%nat) as -> by lia.
  apply starts_with_inv. by apply find_from_zero.
Qed.

(** Unless the text begins with the brace, one less than the position
    of the first closing brace is not [npos] either. *)
Lemma find_minus_one_not_npos (s pat : string) :
  zlen s + 2 < 2 ^ 31 ->
  (forall s', s <> pat +:+ s') ->
  negb (to_size_t (to_int (to_size_t (string_find s pat 0 - 1))) =? npos)
  = true.
Proof.
  intros Hlen Hs. pose proof (zlen_nonneg s).
  destruct (string_find_range s pat 0 ltac:(lia)) as [-> | Hr].
  - reflexivity.
  - assert (string_find s pat 0 <> 0).
    { intros H0. apply string_find_zero in H0 as [s' ->]. by apply (Hs s'). }
    rewrite (to_size_t_nonneg (string_find s pat 0 - 1)) by lia.
    rewrite to_int_small by lia.
    rewrite to_size_t_nonneg by lia. apply position_not_npos. lia.
Qed.

Lemma map_ctor_passes_map_end (map_str : string) :
  zlen map_str + 2 < 2 ^ 31 ->
  (forall s', map_str <> "}" +:+ s') ->
  parser.map.ctor map_str
    <> Abort (assertion_failed "map_end != std::string::npos").
Proof.
  intros Hlen Hs. unfold parser.map.ctor.
  walk ltac:(first
    [ apply find_plus_one_not_npos;
      [first [lia | apply to_size_t_range] | exact Hlen]
    | apply find_minus_one_not_npos; [exact Hlen | exact Hs] ]).
Qed.

(** X18.  The constructor of [parser::map] stops on the assertion about
    [map_end] exactly on the texts that begin with a closing brace; a
    text without any closing brace passes it. *)
Theorem map_ctor_map_end (map_str : string) :
  zlen map_str + 2 < 2 ^ 31 ->
  parser.map.ctor map_str
    = Abort (assertion_failed "map_end != std::string::npos")
  <-> exists s', map_str = String "}" s'.
Proof.
  intros Hlen. split.
  - intros Hrun. destruct map_str as [|x s'].
    + exfalso. by apply (map_ctor_passes_map_end "" Hlen).
    + destruct (Ascii.eqb_spec x "}") as [->|Hx]; [eauto |].
      exfalso. apply (map_ctor_passes_map_end (String x s') Hlen); [|done].
      intros s0 [= E _]. by apply Hx.
  - intros [s' ->]. unfold parser.map.ctor.
    rewrite (assert_done _ _
               (find_plus_one_not_npos _ "{" 0 ltac:(lia) Hlen)).
    rewrite bind_done. reflexivity.
Qed.

Lemma string_take_drop (n : nat) (s : string) :
  string_take n s +:+ string_drop n s = s.
Proof.
  revert s. induction n as [|n IH]; intros s; simpl.
  - by destruct s.
  - destruct s as [|x s]; simpl; [reflexivity | by rewrite IH].
Qed.

Lemma find_from_sound (pat s : string) (i r : nat) :
  find_from pat s i = Some r -> exists a b, s = a +:+ pat +:+ b.
Proof.
  revert i. induction s as [|x s IH]; intros i; cbn [find_from].
  - destruct (starts_with pat EmptyString) eqn:Hp; [|discriminate].
    intros _. apply starts_with_inv in Hp as [b Hb]. by exists EmptyString, b.
  - destruct (starts_with pat (String x s)) eqn:Hp.
    + intros _. apply starts_with_inv in Hp as [b Hb]. by exists EmptyString, b.
    + intros Hf. apply IH in Hf as (a & b & ->). by exists (String x a), b.
Qed.

Lemma string_find_sound (s pat : string) (pos : Z) :
  string_find s pat pos <> npos -> exists a b, s = a +:+ pat +:+ b.
Proof.
  unfold string_find. destruct (_ <=? _); [|done].
  destruct (find_from pat _ _) as [r|] eqn:Hf; [|done].
  intros _. apply find_from_sound in Hf as (a & b & Hab).
  exists (string_take (Z.to_nat pos) s +:+ a), b.
  rewrite append_assoc, <- Hab. by rewrite string_take_drop.
Qed.

(** X19.  The constructor of [parser::map] returns only on a text that
    contains an arrow. *)
Theorem map_ctor_needs_arrow (map_str : string) (m : parser.map.t) :
  parser.map.ctor map_str = Done m ->
  exists a b, map_str = a +:+ "->" +:+ b.
Proof.
  unfold parser.map.ctor. intros H. split_run H.
  match goal with
  | Ha : negb (to_size_t (to_int (string_find _ "->" ?pos)) =? npos) = true
    |- _ => apply (string_find_sound map_str "->" pos); intros Hn;
            rewrite Hn in Ha; discriminate Ha
  end.
Qed.

(** ** Dimension and constraint lists *)

Lemma concat_snoc (sep : string) (l : list string) (x : string) :
  String.concat sep (l ++ [x])
  = match l with
    | [] => x
    | _ :: _ => String.concat sep l +:+ sep +:+ x
    end.
Proof.
  induction l as [|y l IH]; [reflexivity |].
  cbn [app]. rewrite concat_cons by (by destruct l).
  rewrite IH. destruct l as [|z l]; [reflexivity |].
  rewrite (concat_cons sep y (z :: l)) by done. by rewrite !append_assoc.
Qed.

Lemma substituted_absent (in_ out1 out2 : string) (l : list string) :
  in_ ∉ l -> substituted in_ out1 out2 l = l.
Proof.
  induction l as [|dim l IH]; [reflexivity |].
  intros Hin. apply not_elem_of_cons in Hin as [Hne Hin].
  unfold substituted in *. cbn [flat_map].
  rewrite decide_False by congruence. cbn [app]. by rewrite IH.
Qed.

Lemma substituted_removes (in_ out1 out2 : string) (l : list string) :
  out1 <> in_ -> out2 <> in_ -> in_ ∉ substituted in_ out1 out2 l.
Proof.
  intros H1 H2. induction l as [|dim l IH]; [apply not_elem_of_nil |].
  unfold substituted in *. cbn [flat_map].
  destruct (decide (dim = in_)) as [->|Hne]; cbn [app];
    repeat (apply not_elem_of_cons; split; [done |]); exact IH.
Qed.

Lemma replace_dimensions (sp : parser.space.t) (in_ out1 out2 : string) :
  parser.space.replace sp in_ out1 out2
  = {| parser.space.constraints := parser.space.constraints sp;
       parser.space.dimensions :=
         substituted in_ out1 out2 (parser.space.dimensions sp) |}.
Proof. unfold parser.space.replace. by rewrite replace_loop. Qed.

(** X20.  [replace] of a name that is not a dimension of the space changes
    nothing. *)
Theorem replace_absent (sp : parser.space.t) (in_ out1 out2 : string) :
  in_ ∉ parser.space.dimensions sp ->
  parser.space.replace sp in_ out1 out2 = sp.
Proof.
  intros Hin. rewrite replace_dimensions, substituted_absent by done.
  by destruct sp.
Qed.

(** X21.  When neither of the two new names is the replaced one, the
    replaced name is gone after [replace], and replacing again changes
    nothing. *)
Theorem replace_idempotent (sp : parser.space.t) (in_ out1 out2 : string) :
  out1 <> in_ -> out2 <> in_ ->
  (in_ ∉ parser.space.dimensions (parser.space.replace sp in_ out1 out2)) /\
  parser.space.replace (parser.space.replace sp in_ out1 out2) in_ out1 out2
  = parser.space.replace sp in_ out1 out2.
Proof.
  intros H1 H2.
  assert (Hgone :
    in_ ∉ parser.space.dimensions (parser.space.replace sp in_ out1 out2)).
  { rewrite replace_dimensions. by apply substituted_removes. }
  split; [exact Hgone |].
  rewrite (replace_dimensions (parser.space.replace sp in_ out1 out2)).
  rewrite substituted_absent by exact Hgone.
  by destruct (parser.space.replace sp in_ out1 out2).
Qed.

(** X22.  The three [get_str] write their elements in order with the
    delimiter between two of them and nowhere else; [map::get_str] leaves
    the colon out when there is no constraint and never writes the
    parameters. *)
Theorem get_str_joins :
  (forall sp, parser.space.get_str sp
              = String.concat "," (parser.space.dimensions sp)) /\
  (forall c, parser.constraint.get_str c
             = String.concat " and " (parser.constraint.constraints c)) /\
  (forall m, parser.map.get_str m
     = "{" +:+ parser.map.domain_name m +:+ "[" +:+
       String.concat "," (parser.space.dimensions (parser.map.domain m)) +:+
       "] ->" +:+ parser.map.range_name m +:+ "[" +:+
       String.concat "," (parser.space.dimensions (parser.map.range m)) +:+
       "]" +:+
       match parser.constraint.constraints (parser.map.constraints m) with
       | [] => ""
       | cs => " : " +:+ String.concat " and " cs
       end +:+ " }").
Proof.
  split_and!.
  - intros sp. apply join_loop.
  - intros c. apply join_loop.
  - intros m. unfold parser.map.get_str, parser.constraint.empty.
    rewrite !space_get_str, constraint_get_str.
    destruct (parser.constraint.constraints (parser.map.constraints m))
      as [|c0 cs].
    + rewrite bool_decide_eq_true_2 by done. cbn [negb].
      rewrite !append_assoc. reflexivity.
    + rewrite bool_decide_eq_false_2 by done. cbn [negb].
      rewrite !append_assoc. reflexivity.
Qed.

(** X23.  [constraint::add] refuses the empty string; it puts any other
    string at the end of the list, and [get_str] then writes what it
    wrote before, [" and "] and the new string (the new string alone when
    the list was empty). *)
Theorem constraint_add_get_str (c : parser.constraint.t) (str : string) :
  (str = ""%string ->
   parser.constraint.add c str
     = Abort (assertion_failed "str.empty() == false")) /\
  (str <> ""%string ->
   exists c',
     parser.constraint.add c str = Done c' /\
     parser.constraint.constraints c'
       = parser.constraint.constraints c ++ [str] /\
     parser.constraint.empty c' = false /\
     parser.constraint.get_str c'
       = if parser.constraint.empty c then str
         else parser.constraint.get_str c +:+ " and " +:+ str).
Proof.
  split.
  - intros ->. reflexivity.
  - intros Hs. unfold parser.constraint.add.
    rewrite bool_decide_eq_false_2 by done. cbn [negb assert].
    rewrite bind_done. eexists. split; [reflexivity |].
    cbn [parser.constraint.constraints]. unfold push_back.
    split; [reflexivity |]. split.
    + unfold parser.constraint.empty. cbn [parser.constraint.constraints].
      apply bool_decide_eq_false_2. by destruct (parser.constraint.constraints c).
    + rewrite !constraint_get_str. cbn [parser.constraint.constraints].
      rewrite concat_snoc. unfold parser.constraint.empty.
      destruct (parser.constraint.constraints c); reflexivity.
Qed.

Lemma fold_push_back {A : Type} (vec acc : list A) :
  fold_left push_back vec acc = acc ++ vec.
Proof.
  revert acc. induction vec as [|x vec IH]; intros acc; cbn [fold_left].
  - by rewrite app_nil_r.
  - rewrite IH. unfold push_back. by rewrite <- app_assoc.
Qed.

(** X24.  [add_constraints] puts the strings of the vector at the end of
    the list, in order and as they are, the empty string included; two
    calls do what one call with the concatenated vectors does. *)
Theorem add_constraints_appends (c : parser.constraint.t) (vec vec' : list string) :
  parser.constraint.constraints (parser.constraint.add_constraints c vec)
    = parser.constraint.constraints c ++ vec /\
  parser.constraint.add_constraints
    (parser.constraint.add_constraints c vec) vec'
    = parser.constraint.add_constraints c (vec ++ vec') /\
  parser.constraint.get_str
    (parser.constraint.add_constraints parser.constraint.no_constraint vec)
    = String.concat " and " vec.
Proof.
  unfold parser.constraint.add_constraints.
  cbn [parser.constraint.constraints]. rewrite !fold_push_back.
  split_and!.
  - reflexivity.
  - by rewrite app_assoc.
  - rewrite constraint_get_str. reflexivity.
Qed.

(** ** Invariants *)

(** X25.  The constructor of [invariant] checks, in this order, that the
    name is not empty, that the expression is defined and that the
    function pointer is not null; when the pointer is null or points to
    a function it returns exactly when the three hold.  The invariant it
    returns has the name and the expression given, and the other
    functions of the store are as before, whatever [add_invariant] does. *)
Theorem invariant_ctor_checks
    (add_invariant : function.t -> invariant.t -> function.t)
    (param_name : string) (param_expr : Halide.Expr) (func : option loc)
    (fs : gmap loc function.t) :
  (forall l, func = Some l -> is_Some (fs !! l)) ->
  let r := invariant.ctor add_invariant param_name param_expr func fs in
  (param_name = ""%string ->
   r = Abort (assertion_failed "Parameter name empty")) /\
  (param_name <> ""%string -> param_expr = None ->
   r = Abort (assertion_failed "Parameter undefined")) /\
  (param_name <> ""%string -> param_expr <> None -> func = None ->
   r = Abort (assertion_failed "Function undefined")) /\
  (param_name <> ""%string -> param_expr <> None -> func <> None ->
   exists i fs',
     r = Done (i, fs') /\
     invariant.get_name i = param_name /\
     invariant.get_expr i = param_expr /\
     forall l', Some l' <> func -> fs' !! l' = fs !! l').
Proof.
  intros Hlive r. subst r. unfold invariant.ctor. split_and!.
  - intros ->. reflexivity.
  - intros Hn ->.
    rewrite (assert_done (nonempty _)) by (by apply nonempty_iff).
    reflexivity.
  - intros Hn He ->.
    rewrite (assert_done (nonempty _)) by (by apply nonempty_iff).
    rewrite bind_done.
    rewrite (assert_done (Halide.defined _))
      by (by apply bool_decide_eq_true_2).
    reflexivity.
  - intros Hn He Hf. destruct func as [l|]; [|done].
    destruct (Hlive l eq_refl) as [f Hl].
    rewrite (assert_done (nonempty _)) by (by apply nonempty_iff).
    rewrite bind_done.
    rewrite (assert_done (Halide.defined _))
      by (by apply bool_decide_eq_true_2).
    rewrite bind_done.
    rewrite (assert_done (bool_decide _)) by (by apply bool_decide_eq_true_2).
    rewrite bind_done. cbn [deref]. rewrite Hl, bind_done.
    eexists _, _. split; [reflexivity |]. split_and!; try reflexivity.
    intros l' Hl'. cbn [store]. rewrite lookup_insert_ne; [done | congruence].
Qed.

(** X26.  On a map text whose pieces are free of the structural
    characters, the constructor of [parser::map] takes as names exactly
    the characters between the opening brace and the first bracket and
    between the arrow and the next bracket, blanks included, and keeps
    nothing of what precedes the brace: [parameters] stays empty. *)
Theorem map_ctor_names (pre dn d mid rn r w c post : string) :
  free_of "{}:" pre = true ->
  free_of structural dn = true -> free_of structural d = true ->
  free_of structural mid = true ->
  free_of structural rn = true -> free_of structural r = true ->
  free_of structural w = true ->
  free_of "}" c = true ->
  zlen (map_text pre dn d mid rn r w c post) + 2 < 2 ^ 31 ->
  exists m,
    parser.map.ctor (map_text pre dn d mid rn r w c post) = Done m /\
    parser.map.domain_name m = dn /\
    parser.map.range_name m = rn /\
    parser.map.parameters m = parser.space.empty_space.
Proof.
  intros Hpre Hdn Hd Hmid Hrn Hr Hw Hc Hlen.
  eexists. split.
  - by apply ctor_map_text.
  - split_and!; reflexivity.
Qed.

Lemma map_ctor_names_witness :
  (free_of "{}:" "[N] -> " = true /\
   free_of structural " S0" = true /\ free_of structural "i, j" = true /\
   free_of structural " " = true /\
   free_of structural " " = true /\ free_of structural "i, j" = true /\
   free_of structural " " = true /\
   free_of "}" " 0 <= i < N " = true /\
   zlen (map_text "[N] -> " " S0" "i, j" " " " " "i, j" " " " 0 <= i < N " "")
     + 2 < 2 ^ 31) /\
  exists m,
    parser.map.ctor
      (map_text "[N] -> " " S0" "i, j" " " " " "i, j" " " " 0 <= i < N " "")
      = Done m /\
    parser.map.domain_name m = " S0"%string /\
    parser.map.range_name m = " "%string /\
    parser.map.parameters m = parser.space.empty_space.
Proof.
  split; [split_and!; vm_compute; done |].
  apply (map_ctor_names "[N] -> " " S0" "i, j" " " " " "i, j" " "
           " 0 <= i < N " ""); vm_compute; done.
Defined.

Lemma map_ctor_vacuous_assertions_witness :
  zlen "no brace, no bracket" + 2 < 2 ^ 31 /\
  parser.map.ctor "no brace, no bracket"
    <> Abort (assertion_failed "map_begin != std::string::npos") /\
  parser.map.ctor "no brace, no bracket"
    <> Abort (assertion_failed "domain_space_begin != std::string::npos") /\
  parser.map.ctor "no brace, no bracket"
    <> Abort (assertion_failed "range_space_begin != std::string::npos").
Proof.
  split; [vm_compute; reflexivity |].
  apply (map_ctor_vacuous_assertions "no brace, no bracket").
  vm_compute. reflexivity.
Defined.

Lemma map_ctor_map_end_witness :
  zlen "}{S0[i]->[i]" + 2 < 2 ^ 31 /\
  (parser.map.ctor "}{S0[i]->[i]"
     = Abort (assertion_failed "map_end != std::string::npos")
   <-> exists s', "}{S0[i]->[i]"%string = String "}" s').
Proof.
  split; [vm_compute; reflexivity |].
  apply (map_ctor_map_end "}{S0[i]->[i]"). vm_compute. reflexivity.
Defined.

Example map_ctor_without_closing_brace :
  is_done (parser.map.ctor "{S0[i]->[i]: i>=0") = true.
Proof. vm_compute. reflexivity. Qed.

Lemma S0_schedule_parsed :
  exists m, parser.map.ctor S0_schedule_text = Done m.
Proof. eexists. vm_compute. reflexivity. Qed.

Lemma map_ctor_needs_arrow_witness :
  exists m,
    parser.map.ctor S0_schedule_text = Done m /\
    exists a b, S0_schedule_text = a +:+ "->" +:+ b.
Proof.
  destruct S0_schedule_parsed as [m Hm]. exists m. split; [exact Hm |].
  exact (map_ctor_needs_arrow S0_schedule_text m Hm).
Defined.

Lemma replace_absent_witness :
  ("k"%string ∉ parser.space.dimensions (parser.space.mk ["c"] ["i"; "j"])) /\
  parser.space.replace (parser.space.mk ["c"] ["i"; "j"]) "k" "k0" "k1"
  = parser.space.mk ["c"] ["i"; "j"].
Proof.
  assert (Hk : "k"%string
                 ∉ parser.space.dimensions (parser.space.mk ["c"] ["i"; "j"])).
  { cbn. rewrite !not_elem_of_cons. split_and!; [done | done |].
    apply not_elem_of_nil. }
  split; [exact Hk |].
  exact (replace_absent (parser.space.mk ["c"] ["i"; "j"]) "k" "k0" "k1" Hk).
Defined.

Lemma replace_idempotent_witness :
  ("i0"%string <> "i"%string /\ "i1"%string <> "i"%string) /\
  ("i"%string ∉ parser.space.dimensions
     (parser.space.replace (parser.space.mk [] ["i"; "j"; "i"]) "i" "i0" "i1")) /\
  parser.space.replace
    (parser.space.replace (parser.space.mk [] ["i"; "j"; "i"]) "i" "i0" "i1")
    "i" "i0" "i1"
  = parser.space.replace (parser.space.mk [] ["i"; "j"; "i"]) "i" "i0" "i1".
Proof.
  split; [split; discriminate |].
  apply (replace_idempotent (parser.space.mk [] ["i"; "j"; "i"]) "i" "i0" "i1");
    discriminate.
Defined.

Lemma invariant_ctor_checks_witness :
  (forall l, Some 1%positive = Some l -> is_Some (one_function !! l)) /\
  let r := invariant.ctor sample_add_invariant "N" (Some 7%positive)
             (Some 1%positive) one_function in
  ("N"%string = ""%string ->
   r = Abort (assertion_failed "Parameter name empty")) /\
  ("N"%string <> ""%string -> Some 7%positive = None ->
   r = Abort (assertion_failed "Parameter undefined")) /\
  ("N"%string <> ""%string -> Some 7%positive <> None ->
   Some 1%positive = None ->
   r = Abort (assertion_failed "Function undefined")) /\
  ("N"%string <> ""%string -> Some 7%positive <> None ->
   Some 1%positive <> None ->
   exists i fs',
     r = Done (i, fs') /\
     invariant.get_name i = "N"%string /\
     invariant.get_expr i = Some 7%positive /\
     forall l', Some l' <> Some 1%positive -> fs' !! l' = one_function !! l').
Proof.
  assert (Hlive : forall l, Some 1%positive = Some l -> is_Some (one_function !! l)).
  { intros l [= <-]. vm_compute. eauto. }
  split; [exact Hlive |].
  exact (invariant_ctor_checks sample_add_invariant "N" (Some 7%positive)
           (Some 1%positive) one_function Hlive).
Defined.

Example invariant_ctor_sample :
  exists i fs' f',
    invariant.ctor sample_add_invariant "N" (Some 7%positive)
      (Some 1%positive) one_function = Done (i, fs') /\
    fs' !! 1%positive = Some f' /\
    function.get_invariants f' = ["N"%string].
Proof. eexists _, _, _. split_and!; vm_compute; reflexivity. Qed.
